(** * stream-pipeline: the building blocks of [pipeline.ts] and their executor

    A shallow embedding of [src/pipeline.ts].  A TypeScript [number] is an
    IEEE 754 binary64 value, so numbers are Rocq's primitive [float]s: the
    arithmetic of the blocks is the arithmetic of the program, NaN and
    infinities included. *)

From Stdlib Require Import List ZArith Lia Bool String Ascii.
From Stdlib Require Import Permutation Sorted.
From Stdlib Require Import Floats.
From Stdlib Require Import DecimalString.
Import ListNotations.

Local Open Scope Z_scope.

(** ** Value model *)

(** [enum ArrayLogicalBehavior { AND, OR }] *)
Inductive ArrayLogicalBehavior : Set := AND | OR.

(** [class PipelineElement { value: number | PipelineElement[] }]: the test
    [Array.isArray(this.value)] separates the two constructors. *)
#[local] Unset Elimination Schemes.
Inductive PipelineElement : Type :=
| Scalar (value : float)
| Batch (value : list PipelineElement).
#[local] Set Elimination Schemes.

(** [getFlatValues]: a number gives the one-element array; an array is walked
    by [forEach], each member's flat values being pushed at the end of
    [flatValues]. *)
Fixpoint getFlatValues (this : PipelineElement) : list float :=
  match this with
  | Scalar value => [value]
  | Batch value =>
      fold_left (fun flatValues element => flatValues ++ getFlatValues element)
                value []
  end.

(** ** Building blocks *)

(** What one invocation of a block does to its caller: it returns an element
    or [null] ([None]), or it throws.  What is thrown is an error object, as
    are the errors the runtime raises and the one [getValidInputNumber]
    throws; [message] is its [message] property, which the executor reads. *)
Inductive Completion : Type :=
| Return (result : option PipelineElement)
| Throw (message : string).

(** [type BuildingBlock = (el: PipelineElement) => PipelineElement | null].
    A block is a closure: [captured] holds the variables it closes over (the
    [eventBuffer] of a window), [invoke] is its body, which gives the new
    captured variables, the lines written to the console and the completion. *)
Record BuildingBlock : Type := {
  env : Type;
  captured : env;
  invoke : env -> PipelineElement -> env * list string * Completion
}.

(** One call [block(element)]: the block afterwards is the same closure with
    its captured variables updated. *)
Definition call (block : BuildingBlock) (element : PipelineElement)
  : BuildingBlock * list string * Completion :=
  let '(captured', written, completion) := invoke block (captured block) element in
  ({| env := env block; captured := captured'; invoke := invoke block |},
   written, completion).

(** A block that closes over nothing that changes and writes nothing. *)
Definition pureBlock (body : PipelineElement -> option PipelineElement) : BuildingBlock :=
  {| env := unit; captured := tt;
     invoke := fun _ element => (tt, [], Return (body element)) |}.

(** *** filter *)

(** [doesPassFilter]: [reduce] with [&&] from [true] under [AND], with [||]
    from [false] otherwise. *)
Fixpoint doesPassFilter (arrayLogicalBehavior : ArrayLogicalBehavior)
    (element : PipelineElement) (predicate : float -> bool) : bool :=
  match element with
  | Scalar value => predicate value
  | Batch value =>
      match arrayLogicalBehavior with
      | AND =>
          fold_left (fun aggregator inner =>
                       aggregator && doesPassFilter arrayLogicalBehavior inner predicate)
                    value true
      | OR =>
          fold_left (fun aggregator inner =>
                       aggregator || doesPassFilter arrayLogicalBehavior inner predicate)
                    value false
      end
  end.

(** The function returned by [filter(predicate, arrayLogicalBehavior)]. *)
Definition filter_apply (predicate : float -> bool)
    (arrayLogicalBehavior : ArrayLogicalBehavior) (element : PipelineElement)
  : option PipelineElement :=
  if doesPassFilter arrayLogicalBehavior element predicate then Some element else None.

Definition filter (predicate : float -> bool)
    (arrayLogicalBehavior : ArrayLogicalBehavior) : BuildingBlock :=
  pureBlock (filter_apply predicate arrayLogicalBehavior).

(** *** fixedEventWindow *)

(** The function returned by [fixedEventWindow(size)], with the captured
    [eventBuffer] passed in and out.  An array length is an integer, so
    [eventBuffer.length == size] is a comparison of integers whenever it can
    hold.  The emitted element wraps [eventBuffer] itself; the next call
    rebinds [eventBuffer] to a new array before it pushes, so the emitted
    array is never written again. *)
Definition fixedEventWindow_apply (size : Z) (eventBuffer : list PipelineElement)
    (element : PipelineElement)
  : list PipelineElement * option PipelineElement :=
  let eventBuffer :=
    if Z.of_nat (List.length eventBuffer) =? size then [] else eventBuffer in
  let eventBuffer := eventBuffer ++ [element] in
  (eventBuffer,
   if Z.of_nat (List.length eventBuffer) =? size then Some (Batch eventBuffer) else None).

Definition fixedEventWindow (size : Z) : BuildingBlock :=
  {| env := list PipelineElement; captured := [];
     invoke := fun eventBuffer element =>
       let '(eventBuffer', result) := fixedEventWindow_apply size eventBuffer element in
       (eventBuffer', [], Return result) |}.

(** *** foldSum *)

Fixpoint getSumOfValues (element : PipelineElement) : float :=
  match element with
  | Scalar value => value
  | Batch value =>
      fold_left (fun aggregator element => (aggregator + getSumOfValues element)%float)
                value 0%float
  end.

Definition foldSum_apply (element : PipelineElement) : option PipelineElement :=
  Some (Scalar (getSumOfValues element)).

Definition foldSum : BuildingBlock := pureBlock foldSum_apply.

(** *** foldMedian *)

(** [values[index]]: a read outside the array gives [undefined] ([None]);
    the indices used below are integers, possibly negative. *)
Definition Array_get {A : Type} (array : list A) (index : Z) : option A :=
  if index <? 0 then None else nth_error array (Z.to_nat index).

(** The number an arithmetic operator takes from what a read gave:
    [undefined] becomes NaN.  The single read of the odd case is never outside
    the array, so there the conversion changes nothing. *)
Definition ToNumber (read : option float) : float :=
  match read with
  | Some value => value
  | None => nan
  end.

(** What [Array.prototype.sort] takes from its comparator: a NaN counts
    as [+0]. *)
Definition SortCompare (comparefn : float -> float -> float) (x y : float) : float :=
  let v := comparefn x y in
  if is_nan v then 0%float else v.

(** [Array.prototype.sort(comparefn)]: a stable sort, [x] going before [y]
    when the comparator is negative on [(x, y)].  For a consistent comparator
    the result is fixed by the language: the elements in comparator order,
    equal ones in their original order.  It is computed here by insertion.
    With a NaN among the values the comparator [x - y] is not consistent: the
    language then leaves the order to the engine, and the order computed here
    need not be the engine's; nothing below relies on it. *)
Fixpoint sort_insert (comparefn : float -> float -> float) (x : float)
    (sorted : list float) : list float :=
  match sorted with
  | [] => [x]
  | y :: rest =>
      if (SortCompare comparefn x y <? 0)%float then x :: y :: rest
      else y :: sort_insert comparefn x rest
  end.

Definition Array_sort (comparefn : float -> float -> float) (values : list float)
  : list float :=
  fold_left (fun sorted x => sort_insert comparefn x sorted) values [].

(** The indices [getMedianOfValues] reads for an array of length [n]: for an
    even [n] the quotient [n / 2] is exact, for an odd [n] so is
    [(n - 1) / 2]. *)
Definition median_indices (n : Z) : list Z :=
  if n mod 2 =? 0 then [n / 2; n / 2 - 1] else [(n - 1) / 2].

Definition getMedianOfValues (element : PipelineElement) : float :=
  match element with
  | Scalar value => value
  | Batch _ =>
      let values := Array_sort (fun x y => x - y)%float (getFlatValues element) in
      let n := Z.of_nat (List.length values) in
      if n mod 2 =? 0
      then (0.5 * (ToNumber (Array_get values (n / 2))
                   + ToNumber (Array_get values (n / 2 - 1))))%float
      else ToNumber (Array_get values ((n - 1) / 2))
  end.

Definition foldMedian_apply (element : PipelineElement) : option PipelineElement :=
  Some (Scalar (getMedianOfValues element)).

Definition foldMedian : BuildingBlock := pureBlock foldMedian_apply.

(** ** The executor *)

(** [runBuildingBlocks(element, functions)]: [forEach] visits every block;
    the callback returns at once when [element] is [null]; a throw is caught,
    its message is written, and the assignment to [element] has not happened.
    The result is the blocks afterwards, the lines written, and the last
    value of [element]. *)
Fixpoint runBuildingBlocks (element : option PipelineElement)
    (functions : list BuildingBlock)
  : list BuildingBlock * list string * option PipelineElement :=
  match functions with
  | [] => ([], [], element)
  | block :: later =>
      match element with
      | None =>
          let '(later', written, element') := runBuildingBlocks None later in
          (block :: later', written, element')
      | Some el =>
          let '(block', written, completion) := call block el in
          let '(caught, element1) :=
            match completion with
            | Return result => ([], result)
            | Throw message => ([message], Some el)
            end in
          let '(later', written', element') := runBuildingBlocks element1 later in
          (block' :: later', written ++ caught ++ written', element')
      end
  end.

(** [getValidInputNumber], from the value [Number(line)] on: the message of
    the error thrown ([inl]) or the number ([inr]). *)
Definition getValidInputNumber (parsedInput : float) : string + float :=
  if is_nan parsedInput then inl "input is not a number"%string else inr parsedInput.

(** The ['line'] handler of [stdinSource] for one line whose [Number(line)]
    is [parsedInput]: the blocks afterwards and the lines written. *)
Definition stdinSource_line (functions : list BuildingBlock) (parsedInput : float)
  : list BuildingBlock * list string :=
  match getValidInputNumber parsedInput with
  | inl message => (functions, [message])
  | inr parsedInput =>
      let '(functions', written, _) :=
        runBuildingBlocks (Some (Scalar parsedInput)) functions in
      (functions', written)
  end.

(** [stdinSource] over the successive lines: what each line wrote. *)
Fixpoint stdinSource (functions : list BuildingBlock) (lines : list float)
  : list BuildingBlock * list (list string) :=
  match lines with
  | [] => (functions, [])
  | parsedInput :: lines' =>
      let '(functions1, written) := stdinSource_line functions parsedInput in
      let '(functions2, writtens) := stdinSource functions1 lines' in
      (functions2, written :: writtens)
  end.

(** ** The sink and the configured pipeline *)

(** The integer a number is, when it is one. *)
Definition integerValue (v : float) : option Z :=
  match Prim2SF v with
  | S754_zero _ => Some 0
  | S754_finite s m e =>
      let magnitude :=
        if 0 <=? e then Some (Zpos m * 2 ^ e)
        else if Zpos m mod 2 ^ (- e) =? 0 then Some (Zpos m / 2 ^ (- e))
        else None in
      option_map (fun z => if s then - z else z) magnitude
  | _ => None
  end.

Section Sink.

(** [Number.prototype.toString] on the numbers that are not integers below
    [2^53] in magnitude prints the shortest digits that read back as the
    number; those digits are left as a parameter. *)
Variable shortestDigits : float -> string.

(** [value.toString()]: an integer below [2^53] in magnitude is printed as
    its decimal digits, [-0] as [0]. *)
Definition Number_toString (v : float) : string :=
  if is_nan v then "NaN"%string
  else if is_infinity v
       then if (v <? 0)%float then "-Infinity"%string else "Infinity"%string
       else match integerValue v with
            | Some z =>
                if Z.abs z <? 2 ^ 53 then NilZero.string_of_int (Z.to_int z)
                else shortestDigits v
            | None => shortestDigits v
            end.

Fixpoint getValueAsString (element : PipelineElement) : string :=
  match element with
  | Scalar value => Number_toString value
  | Batch value =>
      let substrings :=
        fold_left (fun substrings inner => substrings ++ [getValueAsString inner])
                  value [] in
      ("[" ++ String.concat ", " substrings ++ "]")%string
  end.

(** [stdoutProcessor]: writes the rendering, returns its argument. *)
Definition stdoutProcessor : BuildingBlock :=
  {| env := unit; captured := tt;
     invoke := fun _ element => (tt, [getValueAsString element], Return (Some element)) |}.

(** The pipeline [functions] of the program; [filter] is called without its
    second argument, which defaults to [AND]. *)
Definition functions : list BuildingBlock :=
  [ filter (fun i => (0 <? i)%float) AND;
    fixedEventWindow 2;
    foldSum;
    fixedEventWindow 3;
    foldMedian;
    stdoutProcessor ].

End Sink.

(** ** Observations used by the statements *)

(** The successive calls of one block on [elements], each on the closure the
    previous call left. *)
Fixpoint calls (block : BuildingBlock) (elements : list PipelineElement)
  : list Completion :=
  match elements with
  | [] => []
  | element :: elements' =>
      let '(block', _, completion) := call block element in
      completion :: calls block' elements'
  end.

(** The successive runs of [runBuildingBlocks] on the numbers [inputs], each
    on the blocks the previous run left: the last value of [element] in each
    run. *)
Fixpoint runs (functions : list BuildingBlock) (inputs : list float)
  : list (option PipelineElement) :=
  match inputs with
  | [] => []
  | input :: inputs' =>
      let '(functions', _, element) :=
        runBuildingBlocks (Some (Scalar input)) functions in
      element :: runs functions' inputs'
  end.

(** The elements among a sequence of results, the [null]s dropped. *)
Fixpoint emitted (results : list (option PipelineElement)) : list PipelineElement :=
  match results with
  | [] => []
  | Some element :: results' => element :: emitted results'
  | None :: results' => emitted results'
  end.

(** The window of the given size when its [eventBuffer] holds the given
    elements. *)
Definition windowHolding (size : Z) (eventBuffer : list PipelineElement) : BuildingBlock :=
  {| env := list PipelineElement; captured := eventBuffer;
     invoke := invoke (fixedEventWindow size) |}.

(** A sum block that throws an error on its first call and sums afterwards;
    it stands for a failing block in the examples.  [pending] tells whether
    the failure is still to come. *)
Definition failingOnce (pending : bool) : BuildingBlock :=
  {| env := bool; captured := pending;
     invoke := fun pending element =>
       if pending then (false, [], Throw "sum failed"%string)
       else (false, [], Return (foldSum_apply element)) |}.

(** [block'] is the closure [block] with other captured variables. *)
Definition same_closure (block block' : BuildingBlock) : Prop :=
  exists captured' : env block,
    block' = {| env := env block; captured := captured'; invoke := invoke block |}.

(** The reads [getMedianOfValues] makes in its sorted array: none for a
    number, which is returned before the array is built. *)
Definition median_reads (element : PipelineElement) : list (option float) :=
  match element with
  | Scalar _ => []
  | Batch _ =>
      let values := Array_sort (fun x y => x - y)%float (getFlatValues element) in
      map (Array_get values) (median_indices (Z.of_nat (List.length values)))
  end.

Definition in_bounds (read : option float) : bool :=
  match read with
  | Some _ => true
  | None => false
  end.

(** Whether a block's result is an element, not [null]. *)
Definition passed (result : option PipelineElement) : bool :=
  match result with
  | Some _ => true
  | None => false
  end.

Definition is_empty {A : Type} (l : list A) : bool :=
  match l with
  | [] => true
  | _ :: _ => false
  end.

(** ** Observations used by the further properties *)

(** The [eventBuffer] of a window after the successive calls on [elements],
    from the buffer given. *)
Definition eventBufferAfter (size : Z) (eventBuffer elements : list PipelineElement)
  : list PipelineElement :=
  fold_left (fun eventBuffer element => fst (fixedEventWindow_apply size eventBuffer element))
            elements eventBuffer.

(** The closure that the successive calls of a block on [elements] leave. *)
Fixpoint blockAfter (block : BuildingBlock) (elements : list PipelineElement)
  : BuildingBlock :=
  match elements with
  | [] => block
  | element :: elements' => blockAfter (fst (fst (call block element))) elements'
  end.

(** The elements that a sequence of calls returned, [null]s and throws left
    out. *)
Fixpoint returned (completions : list Completion) : list PipelineElement :=
  match completions with
  | [] => []
  | Return (Some element) :: completions' => element :: returned completions'
  | _ :: completions' => returned completions'
  end.

(** The bodies applied one after the other, a [null] ending the chain. *)
Fixpoint composed (bodies : list (PipelineElement -> option PipelineElement))
    (element : option PipelineElement) : option PipelineElement :=
  match bodies with
  | [] => element
  | body :: bodies' =>
      composed bodies' (match element with
                        | Some el => body el
                        | None => None
                        end)
  end.

(** The results of a body on the successive [elements], [null]s left out. *)
Fixpoint kept (body : PipelineElement -> option PipelineElement)
    (elements : list PipelineElement) : list PipelineElement :=
  match elements with
  | [] => []
  | element :: elements' =>
      match body element with
      | Some result => result :: kept body elements'
      | None => kept body elements'
      end
  end.

(** What the lines write when [writtens] is what the lines that are numbers
    write: the message of [getValidInputNumber] is put in at every NaN. *)
Fixpoint withRejections (lines : list float) (writtens : list (list string))
  : list (list string) :=
  match lines with
  | [] => []
  | parsedInput :: lines' =>
      if is_nan parsedInput
      then ["input is not a number"%string] :: withRejections lines' writtens
      else match writtens with
           | written :: writtens' => written :: withRejections lines' writtens'
           | [] => []
           end
  end.

(** The successive runs of [runBuildingBlocks] on [elements], each on the
    blocks the previous run left: all that was written, in order, and the
    elements the runs ended with. *)
Fixpoint stream (functions : list BuildingBlock) (elements : list PipelineElement)
  : list string * list PipelineElement :=
  match elements with
  | [] => ([], [])
  | element :: elements' =>
      let '(functions', written, result) := runBuildingBlocks (Some element) functions in
      let '(written', results) := stream functions' elements' in
      (written ++ written',
       match result with
       | Some r => r :: results
       | None => results
       end)
  end.

(** A block whose calls never throw and never write. *)
Definition quiet (block : BuildingBlock) : Prop :=
  forall captured element,
  exists captured' result, invoke block captured element = (captured', [], Return result).

(** A scalar above zero. *)
Definition positiveScalar (element : PipelineElement) : Prop :=
  exists v, element = Scalar v /\ (0 <? v)%float = true.

(** Above zero, on the specification side of the floats. *)
Definition SFpositive (x : spec_float) : Prop :=
  match x with
  | S754_finite false _ _ | S754_infinity false => True
  | _ => False
  end.

(** ** The properties in the words of the specification *)

(** A left-to-right, depth-first traversal: [DepthFirst pending leaves] when
    visiting the elements [pending], first to last, and each batch's members
    before what follows the batch, meets the numbers [leaves] in this order. *)
Inductive DepthFirst : list PipelineElement -> list float -> Prop :=
| DepthFirst_done : DepthFirst [] []
| DepthFirst_leaf (v : float) (pending : list PipelineElement) (leaves : list float) :
    DepthFirst pending leaves ->
    DepthFirst (Scalar v :: pending) (v :: leaves)
| DepthFirst_descend (items pending : list PipelineElement) (leaves : list float) :
    DepthFirst (items ++ pending) leaves ->
    DepthFirst (Batch items :: pending) leaves.

(** The sum of a sequence of numbers, taken first to last from [0]. *)
Definition total (numbers : list float) : float :=
  fold_left PrimFloat.add numbers 0%float.

(** The recursive sum of the leaves: a leaf counts for itself, a batch for
    the sum of what its members count for. *)
Fixpoint recursive_sum (element : PipelineElement) : float :=
  match element with
  | Scalar v => v
  | Batch items => total (map recursive_sum items)
  end.

(** [SumOf numbers s]: [s] is what adding up the numbers gives, each taken
    once and in order, under some grouping of the additions (binary64
    addition is not associative), sums of no number counting for [0]. *)
Inductive SumOf : list float -> float -> Prop :=
| SumOf_none : SumOf [] 0%float
| SumOf_one (v : float) : SumOf [v] v
| SumOf_add (numbers numbers' : list float) (s s' : float) :
    SumOf numbers s -> SumOf numbers' s' -> SumOf (numbers ++ numbers') (s + s')%float.

(** The numeric order on numbers. *)
Definition numeric_le (x y : float) : Prop := (x <=? y)%float = true.

(** The average of two numbers. *)
Definition average (x y : float) : float := (0.5 * (x + y))%float.

(** The standard median of a sequence already in ascending order: the single
    middle element for an odd count, the average of the two middle elements
    for an even count, and none for no element. *)
Definition standard_median (ascending : list float) : option float :=
  let n := List.length ascending in
  match n with
  | O => None
  | _ =>
      if Nat.even n
      then Some (average (nth (n / 2 - 1) ascending nan) (nth (n / 2) ascending nan))
      else Some (nth (n / 2) ascending nan)
  end.

(** Below zero, on the specification side of the floats. *)
Definition SFnegative (x : spec_float) : bool := SFltb x (S754_zero false).

(** ** Induction on elements *)

(** The induction principle that gives the hypothesis for every member of a
    batch. *)
Fixpoint PipelineElement_ind (P : PipelineElement -> Prop)
    (P_Scalar : forall value, P (Scalar value))
    (P_Batch : forall value, Forall P value -> P (Batch value))
    (element : PipelineElement) : P element :=
  match element with
  | Scalar value => P_Scalar value
  | Batch value =>
      P_Batch value
        ((fix members (l : list PipelineElement) : Forall P l :=
            match l with
            | [] => Forall_nil P
            | x :: l' =>
                Forall_cons x (PipelineElement_ind P P_Scalar P_Batch x) (members l')
            end) value)
  end.

(** ** Folding over the members of a batch *)

Lemma fold_left_push_all {A B : Type} (f : A -> list B) (l : list A) (acc : list B) :
  fold_left (fun pushed x => pushed ++ f x) l acc = acc ++ flat_map f l.
Proof.
  revert acc; induction l as [|x l IH]; intros acc; simpl.
  - now rewrite app_nil_r.
  - now rewrite IH, app_assoc.
Qed.

Lemma fold_left_andb {A : Type} (f : A -> bool) (l : list A) (b : bool) :
  fold_left (fun aggregator x => aggregator && f x) l b = b && forallb f l.
Proof.
  revert b; induction l as [|x l IH]; intros b; simpl.
  - now rewrite andb_true_r.
  - now rewrite IH, andb_assoc.
Qed.

Lemma fold_left_orb {A : Type} (f : A -> bool) (l : list A) (b : bool) :
  fold_left (fun aggregator x => aggregator || f x) l b = b || existsb f l.
Proof.
  revert b; induction l as [|x l IH]; intros b; simpl.
  - now rewrite orb_false_r.
  - now rewrite IH, orb_assoc.
Qed.

Lemma fold_left_add_map {A : Type} (f : A -> float) (l : list A) (acc : float) :
  fold_left (fun aggregator x => (aggregator + f x)%float) l acc
  = fold_left PrimFloat.add (map f l) acc.
Proof.
  revert acc; induction l as [|x l IH]; intros acc; simpl; [reflexivity | apply IH].
Qed.

Lemma getFlatValues_Batch (value : list PipelineElement) :
  getFlatValues (Batch value) = flat_map getFlatValues value.
Proof. simpl. now rewrite fold_left_push_all. Qed.

Lemma forallb_flat_map {A B : Type} (p : B -> bool) (f : A -> list B) (l : list A) :
  forallb p (flat_map f l) = forallb (fun x => forallb p (f x)) l.
Proof.
  induction l as [|x l IH]; simpl; [reflexivity|].
  now rewrite forallb_app, IH.
Qed.

Lemma existsb_flat_map {A B : Type} (p : B -> bool) (f : A -> list B) (l : list A) :
  existsb p (flat_map f l) = existsb (fun x => existsb p (f x)) l.
Proof.
  induction l as [|x l IH]; simpl; [reflexivity|].
  now rewrite existsb_app, IH.
Qed.

Lemma forallb_ext_Forall {A : Type} (f g : A -> bool) (l : list A) :
  Forall (fun x => f x = g x) l -> forallb f l = forallb g l.
Proof. induction 1 as [|x l E _ IH]; simpl; [reflexivity | now rewrite E, IH]. Qed.

Lemma existsb_ext_Forall {A : Type} (f g : A -> bool) (l : list A) :
  Forall (fun x => f x = g x) l -> existsb f l = existsb g l.
Proof. induction 1 as [|x l E _ IH]; simpl; [reflexivity | now rewrite E, IH]. Qed.

(** ** getFlatValues is the depth-first traversal *)

Lemma DepthFirst_visit (element : PipelineElement) :
  forall pending leaves,
    DepthFirst pending leaves ->
    DepthFirst (element :: pending) (getFlatValues element ++ leaves).
Proof.
  induction element as [v | value IH] using PipelineElement_ind; intros pending leaves H.
  - simpl. now constructor.
  - rewrite getFlatValues_Batch. constructor.
    induction IH as [|x value Hx _ IHvalue]; simpl; [assumption|].
    rewrite <- app_assoc. now apply Hx.
Qed.

Lemma DepthFirst_functional (pending : list PipelineElement) (leaves leaves' : list float) :
  DepthFirst pending leaves -> DepthFirst pending leaves' -> leaves = leaves'.
Proof.
  intros H; revert leaves'.
  induction H as [| v pending leaves _ IH | items pending leaves _ IH];
    intros leaves' H'; inversion H'; subst; auto.
  f_equal; auto.
Qed.

(** C9. For every container, [getFlatValues] returns exactly the sequence of
    scalar leaves met by the left-to-right, depth-first traversal of the
    container (the traversal meets this sequence and no other), and the flat
    values of [Scalar v] are the one-element sequence [[v]]. *)
Theorem getFlatValues_depth_first (element : PipelineElement) :
  DepthFirst [element] (getFlatValues element)
  /\ (forall leaves, DepthFirst [element] leaves -> leaves = getFlatValues element)
  /\ (forall v, getFlatValues (Scalar v) = [v]).
Proof.
  assert (H : DepthFirst [element] (getFlatValues element)).
  { rewrite <- (app_nil_r (getFlatValues element)).
    apply DepthFirst_visit. constructor. }
  split; [exact H|]. split; [|reflexivity].
  intros leaves H'. exact (DepthFirst_functional _ _ _ H' H).
Qed.

(** ** The filter *)

Lemma doesPassFilter_AND_Batch (predicate : float -> bool) (value : list PipelineElement) :
  doesPassFilter AND (Batch value) predicate
  = forallb (fun inner => doesPassFilter AND inner predicate) value.
Proof. simpl. now rewrite fold_left_andb. Qed.

Lemma doesPassFilter_OR_Batch (predicate : float -> bool) (value : list PipelineElement) :
  doesPassFilter OR (Batch value) predicate
  = existsb (fun inner => doesPassFilter OR inner predicate) value.
Proof. simpl. now rewrite fold_left_orb. Qed.

Lemma doesPassFilter_AND_flat (predicate : float -> bool) (element : PipelineElement) :
  doesPassFilter AND element predicate = forallb predicate (getFlatValues element).
Proof.
  induction element as [v | value IH] using PipelineElement_ind.
  - simpl. now rewrite andb_true_r.
  - rewrite doesPassFilter_AND_Batch, getFlatValues_Batch, forallb_flat_map.
    now apply forallb_ext_Forall.
Qed.

Lemma doesPassFilter_OR_flat (predicate : float -> bool) (element : PipelineElement) :
  doesPassFilter OR element predicate = existsb predicate (getFlatValues element).
Proof.
  induction element as [v | value IH] using PipelineElement_ind.
  - simpl. now rewrite orb_false_r.
  - rewrite doesPassFilter_OR_Batch, getFlatValues_Batch, existsb_flat_map.
    now apply existsb_ext_Forall.
Qed.

Lemma passed_filter_apply (predicate : float -> bool)
    (arrayLogicalBehavior : ArrayLogicalBehavior) (element : PipelineElement) :
  passed (filter_apply predicate arrayLogicalBehavior element)
  = doesPassFilter arrayLogicalBehavior element predicate.
Proof.
  unfold filter_apply.
  now destruct (doesPassFilter arrayLogicalBehavior element predicate).
Qed.

Lemma filter_apply_AND_Batch (predicate : float -> bool) (value : list PipelineElement) :
  filter_apply predicate AND (Batch value)
  = if forallb (fun inner => passed (filter_apply predicate AND inner)) value
    then Some (Batch value) else None.
Proof.
  unfold filter_apply at 1. rewrite doesPassFilter_AND_Batch.
  rewrite (forallb_ext_Forall (fun inner => passed (filter_apply predicate AND inner))
                              (fun inner => doesPassFilter AND inner predicate));
    [reflexivity|].
  apply Forall_forall. intros inner _. apply passed_filter_apply.
Qed.

Lemma filter_apply_OR_Batch (predicate : float -> bool) (value : list PipelineElement) :
  filter_apply predicate OR (Batch value)
  = if existsb (fun inner => passed (filter_apply predicate OR inner)) value
    then Some (Batch value) else None.
Proof.
  unfold filter_apply at 1. rewrite doesPassFilter_OR_Batch.
  rewrite (existsb_ext_Forall (fun inner => passed (filter_apply predicate OR inner))
                              (fun inner => doesPassFilter OR inner predicate));
    [reflexivity|].
  apply Forall_forall. intros inner _. apply passed_filter_apply.
Qed.

(** C5. For every container the filter block returns the container itself or
    [null], writes nothing and does not throw.  A scalar passes when the
    predicate holds of it.  Under [AND] a batch passes exactly when all its
    members pass the same filter, each taken alone, and so recursively: the
    results are joined by conjunction from "pass", and an empty batch passes.
    Under [OR] a batch passes exactly when at least one member passes the
    same filter: the results are joined by disjunction from "fail", and an
    empty batch is swallowed.  For [Batch [Scalar 1; Scalar (-1)]] and the
    predicate [v > 0], [AND] swallows and [OR] returns the container. *)
Theorem filter_aggregates :
  (forall predicate value,
      doesPassFilter AND (Batch value) predicate
      = forallb (fun inner => doesPassFilter AND inner predicate) value)
  /\ (forall predicate value,
         doesPassFilter OR (Batch value) predicate
         = existsb (fun inner => doesPassFilter OR inner predicate) value)
  /\ (forall predicate, filter_apply predicate AND (Batch []) = Some (Batch []))
  /\ (forall predicate, filter_apply predicate OR (Batch []) = None)
  /\ filter_apply (fun v => (0 <? v)%float) AND (Batch [Scalar 1; Scalar (-1)]) = None
  /\ filter_apply (fun v => (0 <? v)%float) OR (Batch [Scalar 1; Scalar (-1)])
     = Some (Batch [Scalar 1; Scalar (-1)])
  /\ (forall predicate arrayLogicalBehavior element,
         invoke (filter predicate arrayLogicalBehavior) tt element
         = (tt, [], Return (filter_apply predicate arrayLogicalBehavior element)))
  /\ (forall predicate arrayLogicalBehavior element,
         filter_apply predicate arrayLogicalBehavior element
         = if doesPassFilter arrayLogicalBehavior element predicate
           then Some element else None)
  /\ (forall predicate arrayLogicalBehavior v,
         filter_apply predicate arrayLogicalBehavior (Scalar v)
         = if predicate v then Some (Scalar v) else None)
  /\ (forall predicate value,
         filter_apply predicate AND (Batch value)
         = if forallb (fun inner => passed (filter_apply predicate AND inner)) value
           then Some (Batch value) else None)
  /\ (forall predicate value,
         filter_apply predicate OR (Batch value)
         = if existsb (fun inner => passed (filter_apply predicate OR inner)) value
           then Some (Batch value) else None).
Proof.
  split; [exact doesPassFilter_AND_Batch|].
  split; [exact doesPassFilter_OR_Batch|].
  do 4 (split; [reflexivity|]).
  split; [reflexivity|]. split; [reflexivity|].
  split; [intros predicate [] v; reflexivity|].
  split; [exact filter_apply_AND_Batch | exact filter_apply_OR_Batch].
Qed.

(** C10. For every container and predicate, the filter's recursive test
    under [AND] holds exactly when every flat value satisfies the predicate,
    and under [OR] exactly when at least one flat value satisfies it. *)
Theorem doesPassFilter_quantifies_flat_values
    (predicate : float -> bool) (element : PipelineElement) :
  (doesPassFilter AND element predicate = true
   <-> Forall (fun v => predicate v = true) (getFlatValues element))
  /\ (doesPassFilter OR element predicate = true
      <-> Exists (fun v => predicate v = true) (getFlatValues element)).
Proof.
  rewrite doesPassFilter_AND_flat, doesPassFilter_OR_flat. split.
  - rewrite forallb_forall, Forall_forall. reflexivity.
  - rewrite existsb_exists, Exists_exists. reflexivity.
Qed.

(** ** The sum *)

Lemma getSumOfValues_recursive_sum (element : PipelineElement) :
  getSumOfValues element = recursive_sum element.
Proof.
  induction element as [v | value IH] using PipelineElement_ind; [reflexivity|].
  simpl. rewrite fold_left_add_map. unfold total. f_equal.
  induction IH as [|x value Hx _ IHvalue]; simpl; [reflexivity | now rewrite Hx, IHvalue].
Qed.

Lemma getSumOfValues_SumOf (element : PipelineElement) :
  SumOf (getFlatValues element) (getSumOfValues element).
Proof.
  induction element as [v | value IH] using PipelineElement_ind; [constructor|].
  rewrite getFlatValues_Batch. simpl getSumOfValues.
  enough (H : forall numbers aggregator,
             SumOf numbers aggregator ->
             SumOf (numbers ++ flat_map getFlatValues value)
                   (fold_left (fun aggregator element =>
                                 (aggregator + getSumOfValues element)%float)
                              value aggregator))
    by exact (H [] 0%float SumOf_none).
  induction IH as [|x value Hx _ IHvalue]; intros numbers aggregator Hacc; simpl.
  - now rewrite app_nil_r.
  - rewrite app_assoc. apply IHvalue. now constructor.
Qed.

(** C7. For every container the sum block returns [Scalar s] where [s] is
    the sum of the scalar leaves at every depth: [s] adds up the flat values
    of the container, each once, and it is the recursive sum, in which a
    scalar gives its own value and a batch the sum of its members' sums.  On
    [Batch [Scalar 1; Batch [Scalar 2; Scalar 3]]] it returns [Scalar 6]. *)
Theorem foldSum_recursive_sum :
  (forall element,
      exists s, foldSum_apply element = Some (Scalar s)
                /\ SumOf (getFlatValues element) s
                /\ s = recursive_sum element)
  /\ (forall v, foldSum_apply (Scalar v) = Some (Scalar v))
  /\ (forall value,
         getSumOfValues (Batch value) = total (map getSumOfValues value))
  /\ foldSum_apply (Batch [Scalar 1; Batch [Scalar 2; Scalar 3]]) = Some (Scalar 6).
Proof.
  split; [|split; [|split]]; try reflexivity.
  - intros element. exists (getSumOfValues element).
    split; [reflexivity|]. split.
    + apply getSumOfValues_SumOf.
    + apply getSumOfValues_recursive_sum.
  - intros value. simpl. now rewrite fold_left_add_map.
Qed.

(** ** The executor *)

Lemma runBuildingBlocks_null (functions : list BuildingBlock) :
  runBuildingBlocks None functions = (functions, [], None).
Proof.
  induction functions as [|block later IH]; simpl; [reflexivity|].
  now rewrite IH.
Qed.

(** A run over [before ++ after] is the run over [before] followed by the
    run over [after] from the element that the first leaves. *)
Lemma runBuildingBlocks_app (before after : list BuildingBlock)
    (element : option PipelineElement) :
  runBuildingBlocks element (before ++ after)
  = let '(before', written, element1) := runBuildingBlocks element before in
    let '(after', written', element') := runBuildingBlocks element1 after in
    (before' ++ after', written ++ written', element').
Proof.
  revert element; induction before as [|block before IH]; intros element; simpl.
  - now destruct (runBuildingBlocks element after) as [[after' written'] element'].
  - destruct element as [el|].
    + destruct (call block el) as [[block' written] completion].
      destruct (match completion with
                | Return result => ([], result)
                | Throw message => ([message], Some el)
                end) as [caught element1].
      rewrite IH.
      destruct (runBuildingBlocks element1 before) as [[before' written1] element2].
      destruct (runBuildingBlocks element2 after) as [[after' written'] element'].
      now rewrite <- !app_assoc.
    + rewrite IH.
      destruct (runBuildingBlocks None before) as [[before' written1] element2].
      now destruct (runBuildingBlocks element2 after) as [[after' written'] element'].
Qed.

Lemma call_same_closure (block : BuildingBlock) (element : PipelineElement) :
  same_closure block (fst (fst (call block element))).
Proof.
  unfold call.
  destruct (invoke block (captured block) element) as [[captured' written] completion].
  now exists captured'.
Qed.

Lemma same_closure_refl (block : BuildingBlock) : same_closure block block.
Proof. exists (captured block). now destruct block. Qed.

(** A run changes nothing of its blocks but their captured variables. *)
Lemma runBuildingBlocks_same_closures (functions : list BuildingBlock) :
  forall element,
    Forall2 same_closure functions (fst (fst (runBuildingBlocks element functions))).
Proof.
  induction functions as [|block later IH]; intros element; simpl; [constructor|].
  destruct element as [el|].
  - pose proof (call_same_closure block el) as Hblock.
    destruct (call block el) as [[block' written] completion].
    destruct (match completion with
              | Return result => ([], result)
              | Throw message => ([message], Some el)
              end) as [caught element1].
    specialize (IH element1).
    destruct (runBuildingBlocks element1 later) as [[later' written'] element'].
    now constructor.
  - specialize (IH None).
    destruct (runBuildingBlocks None later) as [[later' written'] element'].
    constructor; [apply same_closure_refl | exact IH].
Qed.

(** C1. When the run of the blocks [before] has led to the element [element]
    and the next block throws on it, the executor writes the message and the
    run goes on through the blocks [after] from that same [element], the
    input of the failing block; the blocks the run leaves are the same
    closures, ready for the next event. *)
Theorem failure_continues_with_input
    (before after : list BuildingBlock) (block : BuildingBlock)
    (input element : PipelineElement)
    (before' : list BuildingBlock) (written : list string)
    (block' : BuildingBlock) (written_block : list string) (message : string)
    (after' : list BuildingBlock) (written' : list string)
    (element' : option PipelineElement) :
  runBuildingBlocks (Some input) before = (before', written, Some element) ->
  call block element = (block', written_block, Throw message) ->
  runBuildingBlocks (Some element) after = (after', written', element') ->
  runBuildingBlocks (Some input) (before ++ block :: after)
  = (before' ++ block' :: after',
     written ++ written_block ++ [message] ++ written', element')
  /\ Forall2 same_closure (before ++ block :: after) (before' ++ block' :: after').
Proof.
  intros Hbefore Hcall Hafter.
  assert (Hrun : runBuildingBlocks (Some input) (before ++ block :: after)
                 = (before' ++ block' :: after',
                    written ++ written_block ++ [message] ++ written', element')).
  { rewrite runBuildingBlocks_app, Hbefore. simpl. now rewrite Hcall, Hafter. }
  split; [exact Hrun|].
  pose proof (runBuildingBlocks_same_closures (before ++ block :: after) (Some input)) as H.
  now rewrite Hrun in H.
Qed.

Lemma failure_continues_with_input_witness :
  runBuildingBlocks (Some (Scalar 2))
    ([windowHolding 2 [Scalar 1]]
       ++ failingOnce true :: [stdoutProcessor (fun _ => EmptyString)])
  = ([windowHolding 2 [Scalar 1; Scalar 2]]
       ++ failingOnce false :: [stdoutProcessor (fun _ => EmptyString)],
     [] ++ [] ++ ["sum failed"%string] ++ ["[1, 2]"%string],
     Some (Batch [Scalar 1; Scalar 2]))
  /\ Forall2 same_closure
       ([windowHolding 2 [Scalar 1]]
          ++ failingOnce true :: [stdoutProcessor (fun _ => EmptyString)])
       ([windowHolding 2 [Scalar 1; Scalar 2]]
          ++ failingOnce false :: [stdoutProcessor (fun _ => EmptyString)]).
Proof.
  apply (failure_continues_with_input
           [windowHolding 2 [Scalar 1]]
           [stdoutProcessor (fun _ => EmptyString)]
           (failingOnce true) (Scalar 2) (Batch [Scalar 1; Scalar 2]));
    reflexivity.
Defined.

(** The sum block fails for one event: the sink still runs, on the batch the
    sum was given, and the next window is summed and written as usual. *)
Example partial_failure_continuation (shortestDigits : float -> string) :
  snd (stdinSource [fixedEventWindow 2; failingOnce true; stdoutProcessor shortestDigits]
                   [1; 2; 3; 4]%float)
  = [[]; ["sum failed"%string; "[1, 2]"%string]; []; ["7"%string]].
Proof. vm_compute. reflexivity. Qed.

(** C8. When the run of the blocks [before] has led to the element [element]
    and the next block returns [null] on it, the run ends with [null]: the
    blocks [after] are left exactly as they were, captured variables
    included, and nothing is written beyond what [before] and the swallowing
    block wrote. *)
Theorem swallow_stops_run
    (before after : list BuildingBlock) (block : BuildingBlock)
    (input element : PipelineElement)
    (before' : list BuildingBlock) (written : list string)
    (block' : BuildingBlock) (written_block : list string) :
  runBuildingBlocks (Some input) before = (before', written, Some element) ->
  call block element = (block', written_block, Return None) ->
  runBuildingBlocks (Some input) (before ++ block :: after)
  = (before' ++ block' :: after, written ++ written_block, None).
Proof.
  intros Hbefore Hcall.
  rewrite runBuildingBlocks_app, Hbefore. simpl.
  rewrite Hcall, runBuildingBlocks_null. simpl.
  now rewrite app_nil_r.
Qed.

Lemma swallow_stops_run_witness :
  runBuildingBlocks (Some (Scalar 5))
    ([filter (fun i => (0 <? i)%float) AND]
       ++ fixedEventWindow 2 :: [foldSum; stdoutProcessor (fun _ => EmptyString)])
  = ([filter (fun i => (0 <? i)%float) AND]
       ++ windowHolding 2 [Scalar 5] :: [foldSum; stdoutProcessor (fun _ => EmptyString)],
     [] ++ [], None).
Proof.
  apply (swallow_stops_run
           [filter (fun i => (0 <? i)%float) AND]
           [foldSum; stdoutProcessor (fun _ => EmptyString)]
           (fixedEventWindow 2) (Scalar 5) (Scalar 5)); reflexivity.
Defined.

(** ** The window *)

Lemma calls_windowHolding (size : Z) (eventBuffer : list PipelineElement)
    (element : PipelineElement) (elements : list PipelineElement) :
  calls (windowHolding size eventBuffer) (element :: elements)
  = Return (snd (fixedEventWindow_apply size eventBuffer element))
      :: calls (windowHolding size (fst (fixedEventWindow_apply size eventBuffer element)))
               elements.
Proof. reflexivity. Qed.

Lemma calls_window_accumulating (size : Z) (chunk : list PipelineElement) :
  forall eventBuffer later,
    chunk <> [] ->
    Z.of_nat (List.length eventBuffer) + Z.of_nat (List.length chunk) = size ->
    calls (windowHolding size eventBuffer) (chunk ++ later)
    = repeat (Return None) (Nat.pred (List.length chunk))
        ++ Return (Some (Batch (eventBuffer ++ chunk)))
        :: calls (windowHolding size (eventBuffer ++ chunk)) later.
Proof.
  induction chunk as [|element chunk IH]; intros eventBuffer later Hne Hsize;
    [contradiction|].
  simpl List.length in Hsize.
  change ((element :: chunk) ++ later) with (element :: chunk ++ later).
  rewrite calls_windowHolding.
  unfold fixedEventWindow_apply.
  assert (Hfree : (Z.of_nat (List.length eventBuffer) =? size) = false)
    by (apply Z.eqb_neq; lia).
  rewrite Hfree. simpl fst. simpl snd.
  destruct chunk as [|element' chunk'].
  - assert (Hfull : (Z.of_nat (List.length (eventBuffer ++ [element])) =? size) = true).
    { apply Z.eqb_eq. rewrite length_app. simpl in *. lia. }
    rewrite Hfull. reflexivity.
  - assert (Hopen : (Z.of_nat (List.length (eventBuffer ++ [element])) =? size) = false).
    { apply Z.eqb_neq. rewrite length_app. simpl in *. lia. }
    rewrite Hopen, IH.
    + rewrite <- !app_assoc. reflexivity.
    + discriminate.
    + rewrite length_app. simpl in *. lia.
Qed.

Lemma calls_window_full (size : Z) (eventBuffer elements : list PipelineElement) :
  0 < size ->
  Z.of_nat (List.length eventBuffer) = size ->
  calls (windowHolding size eventBuffer) elements
  = calls (windowHolding size []) elements.
Proof.
  intros Hsize Hfull. destruct elements as [|element elements]; [reflexivity|].
  rewrite !calls_windowHolding. unfold fixedEventWindow_apply.
  apply Z.eqb_eq in Hfull. rewrite Hfull.
  assert (Hempty : (Z.of_nat (List.length (@nil PipelineElement)) =? size) = false)
    by (apply Z.eqb_neq; simpl; lia).
  now rewrite Hempty.
Qed.

Lemma calls_window_partial (size : Z) (partial : list PipelineElement) :
  forall eventBuffer,
    Z.of_nat (List.length eventBuffer) + Z.of_nat (List.length partial) < size ->
    calls (windowHolding size eventBuffer) partial
    = repeat (Return None) (List.length partial).
Proof.
  induction partial as [|element partial IH]; intros eventBuffer Hsize; [reflexivity|].
  simpl List.length in *. rewrite calls_windowHolding.
  unfold fixedEventWindow_apply.
  assert (Hfree : (Z.of_nat (List.length eventBuffer) =? size) = false)
    by (apply Z.eqb_neq; lia).
  rewrite Hfree. simpl fst. simpl snd.
  assert (Hopen : (Z.of_nat (List.length (eventBuffer ++ [element])) =? size) = false).
  { apply Z.eqb_neq. rewrite length_app. simpl. lia. }
  rewrite Hopen, IH; [reflexivity|].
  rewrite length_app. simpl. lia.
Qed.

(** From the empty buffer, inputs that come as chunks of the window's size
    and a shorter rest are answered by [null] inside each chunk, by the batch
    of the chunk on its last element, and by [null] on the rest. *)
Lemma fixedEventWindow_emits_chunks (size : Z) (chunks : list (list PipelineElement))
    (partial : list PipelineElement) :
  0 < size ->
  Forall (fun chunk => Z.of_nat (List.length chunk) = size) chunks ->
  Z.of_nat (List.length partial) < size ->
  calls (fixedEventWindow size) (List.concat chunks ++ partial)
  = flat_map (fun chunk => repeat (Return None) (Nat.pred (List.length chunk))
                             ++ [Return (Some (Batch chunk))]) chunks
      ++ repeat (Return None) (List.length partial).
Proof.
  intros Hsize Hchunks Hpartial.
  change (fixedEventWindow size) with (windowHolding size []).
  induction Hchunks as [|chunk chunks Hchunk _ IH]; simpl List.concat; simpl flat_map.
  - apply calls_window_partial. simpl. lia.
  - rewrite <- !app_assoc.
    rewrite calls_window_accumulating; [| intros ->; simpl in Hchunk; lia | simpl; lia].
    simpl app at 2. rewrite calls_window_full by assumption.
    now rewrite IH.
Qed.

(** C4. A window of size 2, from its empty buffer, on the scalars 1, 2, 3, 4
    gives [null], [Batch [1; 2]], [null], [Batch [3; 4]].  For every size,
    buffer and element: a buffer that is full is emptied first, the element
    is appended, and the batch of the buffer, in insertion order, is returned
    exactly when the buffer's length after the append is the size.  Hence,
    for a positive size, inputs that come as successive chunks of that size
    are answered by [null] inside a chunk and by the chunk's batch on its
    last element. *)
Theorem fixedEventWindow_tumbles :
  calls (fixedEventWindow 2) [Scalar 1; Scalar 2; Scalar 3; Scalar 4]
  = [Return None; Return (Some (Batch [Scalar 1; Scalar 2]));
     Return None; Return (Some (Batch [Scalar 3; Scalar 4]))]
  /\ (forall size eventBuffer element,
         let kept := if Z.of_nat (List.length eventBuffer) =? size
                     then [] else eventBuffer in
         fst (fixedEventWindow_apply size eventBuffer element) = kept ++ [element]
         /\ (Z.of_nat (List.length (kept ++ [element])) = size ->
             snd (fixedEventWindow_apply size eventBuffer element)
             = Some (Batch (kept ++ [element])))
         /\ (Z.of_nat (List.length (kept ++ [element])) <> size ->
             snd (fixedEventWindow_apply size eventBuffer element) = None))
  /\ (forall size chunks partial,
         0 < size ->
         Forall (fun chunk => Z.of_nat (List.length chunk) = size) chunks ->
         Z.of_nat (List.length partial) < size ->
         calls (fixedEventWindow size) (List.concat chunks ++ partial)
         = flat_map (fun chunk => repeat (Return None) (Nat.pred (List.length chunk))
                                    ++ [Return (Some (Batch chunk))]) chunks
             ++ repeat (Return None) (List.length partial)).
Proof.
  split; [reflexivity|]. split; [|exact fixedEventWindow_emits_chunks].
  intros size eventBuffer element kept. unfold fixedEventWindow_apply. fold kept. simpl.
  split; [reflexivity|]. split; intros H.
  - apply Z.eqb_eq in H. now rewrite H.
  - apply Z.eqb_neq in H. now rewrite H.
Qed.

(** ** The configured pipeline *)

Example getValueAsString_nested (shortestDigits : float -> string) :
  getValueAsString shortestDigits (Batch [Scalar 1; Batch [Scalar (-2); Scalar (-0)]])
  = "[1, [-2, 0]]"%string.
Proof. vm_compute. reflexivity. Qed.

(** C2, as the code has it.  On the inputs 1, 2, 3, -1, 4, 5, 6 the filter
    drops the negative, the first window and the sum produce three sums, 3, 7
    and 11, which fill the window of size 3, and their median 7 is written as
    the text ["7"] at the seventh input.  The further inputs 7 and 8 produce
    a fourth sum, 15, which starts a new window of size 3: nothing more is
    written. *)
Theorem configured_pipeline_scenario (shortestDigits : float -> string) :
  let pipeline := functions shortestDigits in
  let inputs := [1; 2; 3; -1; 4; 5; 6]%float in
  emitted (runs (firstn 1 pipeline) inputs)
  = [Scalar 1; Scalar 2; Scalar 3; Scalar 4; Scalar 5; Scalar 6]
  /\ emitted (runs (firstn 3 pipeline) inputs) = [Scalar 3; Scalar 7; Scalar 11]
  /\ runs (firstn 4 pipeline) inputs
     = [None; None; None; None; None; None;
        Some (Batch [Scalar 3; Scalar 7; Scalar 11])]
  /\ runs pipeline inputs = [None; None; None; None; None; None; Some (Scalar 7)]
  /\ snd (stdinSource pipeline inputs) = [[]; []; []; []; []; []; ["7"%string]]
  /\ emitted (runs (firstn 3 pipeline) (inputs ++ [7; 8]%float))
     = [Scalar 3; Scalar 7; Scalar 11; Scalar 15]
  /\ emitted (runs (firstn 4 pipeline) (inputs ++ [7; 8]%float))
     = [Batch [Scalar 3; Scalar 7; Scalar 11]]
  /\ snd (stdinSource pipeline (inputs ++ [7; 8]%float))
     = [[]; []; []; []; []; []; ["7"%string]; []; []].
Proof. repeat split; vm_compute; reflexivity. Qed.

(** C2, as stated, fails: after 1, 2, 3, -1, 4, 5, 6 the sums are not just 3
    and 7, since 5 and 6 have given a third sum, 11; the window of size 3 is
    full and the median has been written already. *)
Lemma configured_pipeline_three_sums :
  (forall shortestDigits,
      emitted (runs (firstn 3 (functions shortestDigits)) [1; 2; 3; -1; 4; 5; 6]%float)
      = [Scalar 3; Scalar 7; Scalar 11])
  /\ (forall shortestDigits,
         emitted (runs (firstn 3 (functions shortestDigits)) [1; 2; 3; -1; 4; 5; 6]%float)
         <> [Scalar 3; Scalar 7])
  /\ (forall shortestDigits,
         snd (stdinSource (functions shortestDigits) [1; 2; 3; -1; 4; 5; 6]%float)
         = [[]; []; []; []; []; []; ["7"%string]]).
Proof.
  split; [|split]; intros shortestDigits.
  - vm_compute; reflexivity.
  - vm_compute. discriminate.
  - vm_compute; reflexivity.
Qed.

(** ** Sorting keeps the values *)

Lemma sort_insert_Permutation (comparefn : float -> float -> float) (x : float)
    (sorted : list float) :
  Permutation (sort_insert comparefn x sorted) (x :: sorted).
Proof.
  induction sorted as [|y rest IH]; simpl; [reflexivity|].
  destruct (SortCompare comparefn x y <? 0)%float; [reflexivity|].
  rewrite IH. apply perm_swap.
Qed.

Lemma Array_sort_Permutation (comparefn : float -> float -> float) (values : list float) :
  Permutation (Array_sort comparefn values) values.
Proof.
  unfold Array_sort.
  enough (H : forall sorted,
             Permutation (fold_left (fun sorted x => sort_insert comparefn x sorted)
                                    values sorted)
                         (sorted ++ values)) by exact (H []).
  induction values as [|x values IH]; intros sorted; simpl.
  - now rewrite app_nil_r.
  - rewrite IH, sort_insert_Permutation. apply Permutation_middle.
Qed.

Lemma Array_sort_length (comparefn : float -> float -> float) (values : list float) :
  List.length (Array_sort comparefn values) = List.length values.
Proof. apply Permutation_length, Array_sort_Permutation. Qed.

(** ** Reads of the median *)

Lemma Array_get_in_bounds {A : Type} (array : list A) (index : Z) :
  0 <= index < Z.of_nat (List.length array) ->
  exists value, Array_get array index = Some value.
Proof.
  intros H. unfold Array_get.
  destruct (index <? 0) eqn:E; [apply Z.ltb_lt in E; lia|].
  destruct (nth_error array (Z.to_nat index)) as [value|] eqn:N; [now exists value|].
  apply nth_error_None in N. lia.
Qed.

Lemma Array_get_nth {A : Type} (array : list A) (index : Z) (d : A) :
  0 <= index < Z.of_nat (List.length array) ->
  Array_get array index = Some (nth (Z.to_nat index) array d).
Proof.
  intros H. unfold Array_get.
  destruct (index <? 0) eqn:E; [apply Z.ltb_lt in E; lia|].
  apply nth_error_nth'. lia.
Qed.

Lemma median_indices_in_bounds (n : Z) :
  0 < n -> Forall (fun index => 0 <= index < n) (median_indices n).
Proof.
  intros H. unfold median_indices.
  destruct (n mod 2 =? 0) eqn:E.
  - apply Z.eqb_eq in E. repeat constructor; Z.to_euclidean_division_equations; lia.
  - apply Z.eqb_neq in E. repeat constructor; Z.to_euclidean_division_equations; lia.
Qed.

Lemma median_reads_in_bounds (value : list PipelineElement) :
  getFlatValues (Batch value) <> [] ->
  forallb in_bounds (median_reads (Batch value)) = true.
Proof.
  intros Hne. unfold median_reads.
  set (values := Array_sort _ _).
  assert (Hn : 0 < Z.of_nat (List.length values)).
  { unfold values. rewrite Array_sort_length.
    destruct (getFlatValues (Batch value)); [contradiction | simpl; lia]. }
  apply forallb_forall. intros read Hread.
  apply in_map_iff in Hread. destruct Hread as [index [<- Hindex]].
  pose proof (median_indices_in_bounds _ Hn) as Hall.
  rewrite Forall_forall in Hall.
  destruct (Array_get_in_bounds values index (Hall _ Hindex)) as [v ->].
  reflexivity.
Qed.

Lemma median_reads_of_nothing (value : list PipelineElement) :
  getFlatValues (Batch value) = [] ->
  median_reads (Batch value) = [None; None].
Proof. intros H. unfold median_reads. now rewrite H. Qed.

Lemma getMedianOfValues_reads (value : list PipelineElement) :
  getMedianOfValues (Batch value)
  = match median_reads (Batch value) with
    | [upper; lower] => (0.5 * (ToNumber upper + ToNumber lower))%float
    | [middle] => ToNumber middle
    | _ => nan
    end.
Proof.
  unfold getMedianOfValues, median_reads, median_indices.
  now destruct (Z.of_nat (List.length _) mod 2 =? 0).
Qed.

(** C3, as the code has it.  For every container, an empty batch included,
    the sum block and the median block both return a scalar, and no failure
    is raised; the reads the median makes in its sorted array are all inside
    the array exactly when the container has at least one flat value. *)
Theorem folds_return_scalars (element : PipelineElement) :
  (exists s, invoke foldSum tt element = (tt, [], Return (Some (Scalar s))))
  /\ (exists m, invoke foldMedian tt element = (tt, [], Return (Some (Scalar m))))
  /\ forallb in_bounds (median_reads element)
     = negb (is_empty (getFlatValues element)).
Proof.
  split; [now exists (getSumOfValues element)|].
  split; [now exists (getMedianOfValues element)|].
  destruct element as [v | value]; [reflexivity|].
  destruct (getFlatValues (Batch value)) as [|v flat] eqn:E.
  - now rewrite (median_reads_of_nothing _ E).
  - apply median_reads_in_bounds. rewrite E. discriminate.
Qed.

(** C3, as stated, fails: on the empty batch, and on a batch of empty
    batches, the median reads index 0 and index -1 of an empty array. *)
Lemma median_reads_outside_empty_array :
  median_indices 0 = [0; -1]
  /\ median_reads (Batch []) = [None; None]
  /\ forallb in_bounds (median_reads (Batch [])) = false
  /\ forallb in_bounds (median_reads (Batch [Batch []; Batch []])) = false
  /\ foldMedian_apply (Batch []) = Some (Scalar nan).
Proof. repeat split. Qed.

(** ** Binary64 arithmetic: the comparator [x - y] and the numeric order

    The primitive operations are specified by [SpecFloat] through the axioms
    of [FloatAxioms]; [prec] is 53 and [emax] is 1024. *)

Module Binary64.

Lemma digits2_pos_size (m : positive) : digits2_pos m = Pos.size m.
Proof. induction m; simpl; congruence. Qed.

(** A mantissa of [d] binary digits lies between [2^(d-1)] and [2^d]. *)
Lemma digits2_pos_bounds (m : positive) :
  2 ^ (Zpos (digits2_pos m) - 1) <= Zpos m < 2 ^ Zpos (digits2_pos m).
Proof.
  rewrite digits2_pos_size. split.
  - pose proof (Pos.size_le m) as H.
    assert (H' : Zpos (2 ^ Pos.size m) <= Zpos m~0) by exact H.
    rewrite Pos2Z.inj_pow in H'.
    replace (Zpos (Pos.size m)) with (Zpos (Pos.size m) - 1 + 1) in H' by lia.
    rewrite Z.pow_add_r, Z.pow_1_r in H' by lia. lia.
  - pose proof (Pos.size_gt m) as H.
    assert (H' : Zpos m < Zpos (2 ^ Pos.size m)) by exact H.
    now rewrite Pos2Z.inj_pow in H'.
Qed.

Lemma shr_1_div2 (mrs : shr_record) :
  0 <= shr_m mrs -> shr_m (shr_1 mrs) = shr_m mrs / 2.
Proof.
  destruct mrs as [m r s]. simpl. intros H.
  destruct m as [|p|p]; [reflexivity| |lia].
  destruct p as [p|p|]; simpl.
  - rewrite Pos2Z.inj_xI. Z.to_euclidean_division_equations; lia.
  - rewrite Pos2Z.inj_xO. Z.to_euclidean_division_equations; lia.
  - reflexivity.
Qed.

(** Shifting a mantissa right by [p] bits divides it by [2^p]. *)
Lemma iter_shr_1_div (p : positive) :
  forall mrs, 0 <= shr_m mrs ->
    shr_m (iter_pos shr_1 p mrs) = shr_m mrs / 2 ^ Zpos p.
Proof.
  assert (Hnn : forall a b, 0 <= a -> 0 < b -> 0 <= a / b).
  { intros. apply Z.div_pos; lia. }
  assert (Hpow : forall q, 0 < 2 ^ Zpos q).
  { intros. apply Z.pow_pos_nonneg; lia. }
  induction p as [p IH|p IH|]; intros mrs H; simpl iter_pos.
  - pose proof (Hpow p) as Hp.
    assert (H1 : 0 <= shr_m (shr_1 mrs)).
    { rewrite shr_1_div2 by assumption. apply Hnn; lia. }
    assert (H2 : 0 <= shr_m (iter_pos shr_1 p (shr_1 mrs))).
    { rewrite IH by assumption. apply Hnn; lia. }
    rewrite IH, IH, shr_1_div2 by assumption.
    rewrite !Z.div_div by lia.
    f_equal. change 2 with (2 ^ 1) at 1.
    rewrite <- !Z.pow_add_r by lia. f_equal. lia.
  - pose proof (Hpow p) as Hp.
    assert (H2 : 0 <= shr_m (iter_pos shr_1 p mrs)).
    { rewrite IH by assumption. apply Hnn; lia. }
    rewrite IH, IH by assumption.
    rewrite !Z.div_div by lia.
    f_equal. rewrite <- Z.pow_add_r by lia. f_equal. lia.
  - now apply shr_1_div2.
Qed.

Lemma shr_m_record_of_loc (m : Z) (l : location) : shr_m (shr_record_of_loc m l) = m.
Proof. destruct l as [|[]]; reflexivity. Qed.

Lemma fexp_binary64 (z : Z) : fexp prec emax z = Z.max (z - 53) (-1074).
Proof. reflexivity. Qed.

(** Above the least exponent, bringing a mantissa to the format never shifts
    all of its bits out. *)
Lemma shr_fexp_positive (m : positive) (e : Z) (l : location) :
  -1074 <= e ->
  0 < shr_m (fst (shr_fexp prec emax (Zpos m) e l))
  /\ -1074 <= snd (shr_fexp prec emax (Zpos m) e l).
Proof.
  intros He. unfold shr_fexp. rewrite fexp_binary64. simpl Zdigits2.
  pose proof (digits2_pos_bounds m) as [Hlo Hhi].
  set (d := Zpos (digits2_pos m)) in *.
  unfold shr.
  destruct (Z.max (d + e - 53) (-1074) - e) as [|q|q] eqn:En; simpl fst; simpl snd;
    rewrite ?shr_m_record_of_loc; try (split; lia).
  rewrite iter_shr_1_div by (rewrite shr_m_record_of_loc; lia).
  rewrite shr_m_record_of_loc. split; [|lia].
  apply Z.div_str_pos. split; [apply Z.pow_pos_nonneg; lia|].
  eapply Z.le_trans; [|exact Hlo].
  apply Z.pow_le_mono_r; lia.
Qed.

Lemma round_nearest_even_positive (m : Z) (l : location) :
  0 < m -> 0 < round_nearest_even m l.
Proof.
  intros H. destruct l as [|[]]; simpl; try lia.
  destruct (Z.even m); lia.
Qed.

(** So rounding keeps the sign: the result is a finite number or an infinity
    of the sign given, never a zero. *)
Lemma binary_round_aux_sign (s : bool) (m : positive) (e : Z) (l : location) :
  -1074 <= e ->
  SFnegative (binary_round_aux prec emax s (Zpos m) e l) = s.
Proof.
  intros He. unfold binary_round_aux.
  pose proof (shr_fexp_positive m e l He) as [H1 H1'].
  destruct (shr_fexp prec emax (Zpos m) e l) as [mrs' e'].
  simpl fst in H1; simpl snd in H1'.
  pose proof (round_nearest_even_positive _ (loc_of_shr_record mrs') H1) as H2.
  destruct (round_nearest_even (shr_m mrs') (loc_of_shr_record mrs')) as [|m2|m2]; try lia.
  pose proof (shr_fexp_positive m2 e' loc_Exact H1') as [H3 _].
  destruct (shr_fexp prec emax (Zpos m2) e' loc_Exact) as [mrs'' e''].
  simpl fst in H3.
  destruct (shr_m mrs'') as [|m3|m3]; try lia.
  destruct (e'' <=? emax - prec); destruct s; reflexivity.
Qed.

Lemma shl_align_exponent (m : positive) (e e' : Z) :
  snd (shl_align m e e') = Z.min e e'.
Proof.
  unfold shl_align. destruct (e' - e) as [|d|d] eqn:E; simpl; lia.
Qed.

Lemma pow2_xI (d : positive) : 2 ^ Zpos d~1 = 2 * (2 ^ Zpos d * 2 ^ Zpos d).
Proof.
  rewrite <- Z.pow_add_r by lia. rewrite <- Z.pow_succ_r by lia. f_equal. lia.
Qed.

Lemma pow2_xO (d : positive) : 2 ^ Zpos d~0 = 2 ^ Zpos d * 2 ^ Zpos d.
Proof. rewrite <- Z.pow_add_r by lia. f_equal. lia. Qed.

Lemma iter_xO_mul (m d : positive) : Zpos (Pos.iter xO m d) = Zpos m * 2 ^ Zpos d.
Proof.
  revert m. induction d as [d IH|d IH|]; intros m; simpl Pos.iter.
  - rewrite pow2_xI, Pos2Z.inj_xO, IH, IH. lia.
  - rewrite pow2_xO, IH, IH. lia.
  - rewrite Pos2Z.inj_xO. lia.
Qed.

Lemma shl_align_mantissa (m : positive) (e e' : Z) :
  e' <= e -> Zpos (fst (shl_align m e e')) = Zpos m * 2 ^ (e - e').
Proof.
  intros H. unfold shl_align. destruct (e' - e) as [|d|d] eqn:E; simpl fst.
  - replace (e - e') with 0 by lia. lia.
  - lia.
  - rewrite iter_xO_mul. f_equal. f_equal. lia.
Qed.

Lemma binary_round_sign (s : bool) (m : positive) (e : Z) :
  -1074 <= e ->
  SFnegative (binary_round prec emax s m e) = s.
Proof.
  intros He. unfold binary_round.
  pose proof (shl_align_exponent m e (fexp prec emax (Zpos (digits2_pos m) + e))) as Hz.
  destruct (shl_align m e (fexp prec emax (Zpos (digits2_pos m) + e))) as [mz ez].
  simpl snd in Hz. apply binary_round_aux_sign.
  rewrite Hz, fexp_binary64. lia.
Qed.

Lemma binary_normalize_sign (m e : Z) :
  -1074 <= e ->
  SFnegative (binary_normalize prec emax m e false) = (m <? 0).
Proof.
  intros He. destruct m as [|p|p]; simpl binary_normalize.
  - reflexivity.
  - now rewrite binary_round_sign.
  - now rewrite binary_round_sign.
Qed.

(** A valid finite binary64: the exponent is at least [-1074], the mantissa
    is below [2^53], and at least [2^52] unless the exponent is the least. *)
Lemma bounded_binary64 (m : positive) (e : Z) :
  bounded prec emax m e = true ->
  -1074 <= e /\ Zpos m < 2 ^ 53 /\ (-1074 < e -> 2 ^ 52 <= Zpos m).
Proof.
  unfold bounded, canonical_mantissa. rewrite fexp_binary64.
  intros H. apply andb_prop in H. destruct H as [H _]. apply Z.eqb_eq in H.
  pose proof (digits2_pos_bounds m) as [Hlo Hhi].
  set (d := Zpos (digits2_pos m)) in *.
  split; [lia|]. split.
  - eapply Z.lt_le_trans; [exact Hhi|]. apply Z.pow_le_mono_r; lia.
  - intros He. replace d with 53 in Hlo by lia. exact Hlo.
Qed.

(** Of two valid finite numbers of the same sign, the one with the smaller
    exponent has the smaller magnitude, once both are brought to the smaller
    exponent. *)
Lemma aligned_order (mx my : positive) (ex ey : Z) :
  bounded prec emax mx ex = true ->
  bounded prec emax my ey = true ->
  ex < ey ->
  Zpos mx * 2 ^ (ex - Z.min ex ey) < Zpos my * 2 ^ (ey - Z.min ex ey).
Proof.
  intros Hx Hy Hlt.
  apply bounded_binary64 in Hx, Hy.
  destruct Hx as [Hex [Hmx _]]. destruct Hy as [_ [_ Hmy]].
  specialize (Hmy ltac:(lia)).
  rewrite Z.min_l by lia. rewrite Z.sub_diag, Z.pow_0_r, Z.mul_1_r.
  assert (Hp : 2 ^ 1 <= 2 ^ (ey - ex)) by (apply Z.pow_le_mono_r; lia).
  change (2 ^ 1) with 2 in Hp. change (2 ^ 53) with (2 * 2 ^ 52) in Hmx.
  nia.
Qed.

(** The difference of two numbers is below zero exactly when the first is
    below the second. *)
Lemma SFsub_negative (x y : spec_float) :
  valid_binary x = true -> valid_binary y = true ->
  SFnegative (SF64sub x y) = SFltb x y.
Proof.
  intros Hx Hy.
  destruct x as [sx|sx| |sx mx ex]; destruct y as [sy|sy| |sy my ey];
    try solve [repeat match goal with b : bool |- _ => destruct b end; reflexivity].
  simpl in Hx, Hy. unfold SF64sub, SFsub.
  pose proof (bounded_binary64 _ _ Hx) as [Hex _].
  pose proof (bounded_binary64 _ _ Hy) as [Hey _].
  rewrite binary_normalize_sign by lia.
  rewrite !shl_align_mantissa by lia.
  unfold SFltb, SFcompare.
  assert (Hpx : 0 < Zpos mx * 2 ^ (ex - Z.min ex ey)).
  { apply Z.mul_pos_pos; [lia | apply Z.pow_pos_nonneg; lia]. }
  assert (Hpy : 0 < Zpos my * 2 ^ (ey - Z.min ex ey)).
  { apply Z.mul_pos_pos; [lia | apply Z.pow_pos_nonneg; lia]. }
  destruct (Z.compare_spec ex ey) as [E|E|E].
  - subst ey. rewrite Z.min_id, Z.sub_diag, Z.pow_0_r, !Z.mul_1_r in *.
      change (Pos.compare_cont Eq mx my) with (Pos.compare mx my).
      destruct (Pos.compare_spec mx my) as [M|M|M]; destruct sx, sy;
        cbv beta iota delta [cond_Zopp CompOpp];
        try (apply Z.ltb_lt; lia); try (apply Z.ltb_ge; lia).
  - pose proof (aligned_order _ _ _ _ Hx Hy E) as Hord.
      destruct sx, sy; cbv beta iota delta [cond_Zopp CompOpp];
        try (apply Z.ltb_lt; lia); try (apply Z.ltb_ge; lia).
  - pose proof (aligned_order _ _ _ _ Hy Hx E) as Hord.
      rewrite (Z.min_comm ey ex) in Hord.
      destruct sx, sy; cbv beta iota delta [cond_Zopp CompOpp];
        try (apply Z.ltb_lt; lia); try (apply Z.ltb_ge; lia).
Qed.

Lemma sub_negative_ltb (x y : float) : (x - y <? 0)%float = (x <? y)%float.
Proof.
  rewrite !ltb_spec, sub_spec.
  change (Prim2SF 0) with (S754_zero false).
  apply SFsub_negative; apply Prim2SF_valid.
Qed.

Lemma SFcompare_antisym (x y : spec_float) :
  SFcompare y x = option_map CompOpp (SFcompare x y).
Proof.
  destruct x as [sx|sx| |sx mx ex]; destruct y as [sy|sy| |sy my ey];
    try solve [repeat match goal with b : bool |- _ => destruct b end; reflexivity].
  unfold SFcompare, option_map. f_equal.
  rewrite (Z.compare_antisym ex ey).
  change (Pos.compare_cont Eq my mx) with (Pos.compare my mx).
  change (Pos.compare_cont Eq mx my) with (Pos.compare mx my).
  rewrite (Pos.compare_antisym mx my).
  destruct sx, sy, (ex ?= ey), (mx ?= my)%positive; reflexivity.
Qed.

Lemma SFcompare_refl (x : spec_float) :
  x <> S754_nan -> SFcompare x x = Some Eq.
Proof.
  destruct x as [s|s| |s m e]; intros H; try contradiction;
    try (destruct s; reflexivity).
  unfold SFcompare. rewrite Z.compare_refl.
  change (Pos.compare_cont Eq m m) with (Pos.compare m m).
  rewrite Pos.compare_refl. now destruct s.
Qed.

Lemma is_nan_Prim2SF (x : float) :
  is_nan x = false -> Prim2SF x <> S754_nan.
Proof.
  unfold is_nan. rewrite eqb_spec. unfold SFeqb. intros H E. rewrite E in H. discriminate.
Qed.

Lemma is_nan_not_negative (x : float) : is_nan x = true -> (x <? 0)%float = false.
Proof.
  unfold is_nan. rewrite eqb_spec, ltb_spec. unfold SFeqb, SFltb. intros H.
  destruct (Prim2SF x) as [s|s| |s m e] eqn:E; try reflexivity;
    rewrite SFcompare_refl in H by discriminate; discriminate.
Qed.

Lemma SFcompare_defined (x y : spec_float) :
  x <> S754_nan -> y <> S754_nan -> exists c, SFcompare x y = Some c.
Proof.
  destruct x, y; intros Hx Hy; try contradiction; simpl; eauto.
Qed.

Lemma ltb_leb (x y : float) : (x <? y)%float = true -> (x <=? y)%float = true.
Proof.
  rewrite ltb_spec, leb_spec. unfold SFltb, SFleb.
  now destruct (SFcompare (Prim2SF x) (Prim2SF y)) as [[]|].
Qed.

(** The numeric order is total on the numbers that are not NaN. *)
Lemma not_ltb_leb (x y : float) :
  is_nan x = false -> is_nan y = false ->
  (x <? y)%float = false -> (y <=? x)%float = true.
Proof.
  intros Hx Hy. apply is_nan_Prim2SF in Hx, Hy.
  rewrite ltb_spec, leb_spec. unfold SFltb, SFleb.
  rewrite (SFcompare_antisym (Prim2SF x) (Prim2SF y)).
  destruct (SFcompare_defined _ _ Hx Hy) as [c ->].
  now destruct c.
Qed.

Lemma SFadd_comm (x y : spec_float) : SF64add x y = SF64add y x.
Proof.
  destruct x as [sx|sx| |sx mx ex]; destruct y as [sy|sy| |sy my ey];
    try solve [repeat match goal with b : bool |- _ => destruct b end; reflexivity].
  unfold SF64add, SFadd. rewrite (Z.min_comm ey ex). f_equal. apply Z.add_comm.
Qed.

(** Binary64 addition is commutative. *)
Lemma add_comm (x y : float) : (x + y = y + x)%float.
Proof. apply Prim2SF_inj. rewrite !add_spec. apply SFadd_comm. Qed.

Ltac split_comparisons :=
  repeat match goal with
    | H : context [Z.compare ?a ?b] |- _ => destruct (Z.compare_spec a b)
    | |- context [Z.compare ?a ?b] => destruct (Z.compare_spec a b)
    | H : context [Pos.compare ?a ?b] |- _ => destruct (Pos.compare_spec a b)
    | |- context [Pos.compare ?a ?b] => destruct (Pos.compare_spec a b)
    end.

Lemma SFleb_trans (x y z : spec_float) :
  SFleb x y = true -> SFleb y z = true -> SFleb x z = true.
Proof.
  unfold SFleb.
  destruct x as [sx|sx| |sx mx ex]; destruct y as [sy|sy| |sy my ey];
    destruct z as [sz|sz| |sz mz ez];
    repeat match goal with b : bool |- _ => destruct b end;
    unfold SFcompare; try (intros; (reflexivity || discriminate));
    change (Pos.compare_cont Eq) with Pos.compare;
    intros Hxy Hyz; split_comparisons; cbv [CompOpp] in *;
    try reflexivity; try discriminate; try lia.
Qed.

(** The numeric order is transitive. *)
Lemma leb_trans (x y z : float) :
  (x <=? y)%float = true -> (y <=? z)%float = true -> (x <=? z)%float = true.
Proof. rewrite !leb_spec. apply SFleb_trans. Qed.

End Binary64.

(** ** Sorting by [x - y] puts numbers in ascending order *)

Lemma SortCompare_sub_negative (x y : float) :
  (SortCompare (fun x y => x - y) x y <? 0)%float = (x <? y)%float.
Proof.
  unfold SortCompare. rewrite <- (Binary64.sub_negative_ltb x y).
  destruct (is_nan (x - y)) eqn:E; [|reflexivity].
  now rewrite (Binary64.is_nan_not_negative _ E).
Qed.

Lemma sort_insert_ascending (x : float) (sorted : list float) :
  is_nan x = false ->
  Forall (fun v => is_nan v = false) sorted ->
  StronglySorted numeric_le sorted ->
  StronglySorted numeric_le (sort_insert (fun x y => x - y)%float x sorted).
Proof.
  intros Hx Hnan Hsorted.
  induction Hsorted as [|y rest Hrest IH Hy]; simpl.
  - repeat constructor.
  - inversion Hnan as [|? ? Hynan Hrestnan]; subst.
    rewrite SortCompare_sub_negative.
    destruct (x <? y)%float eqn:E.
    + apply Binary64.ltb_leb in E.
      constructor; [now constructor|].
      constructor; [exact E|].
      eapply Forall_impl; [|exact Hy].
      intros z Hz. exact (Binary64.leb_trans _ _ _ E Hz).
    + apply (Binary64.not_ltb_leb _ _ Hx Hynan) in E.
      constructor; [now apply IH|].
      eapply Permutation_Forall.
      * symmetry. apply sort_insert_Permutation.
      * now constructor.
Qed.

(** Without NaN, [sort] with the comparator [x - y] leaves the values in
    ascending numeric order. *)
Lemma Array_sort_ascending (values : list float) :
  Forall (fun v => is_nan v = false) values ->
  StronglySorted numeric_le (Array_sort (fun x y => x - y)%float values).
Proof.
  unfold Array_sort.
  enough (H : forall sorted,
             Forall (fun v => is_nan v = false) sorted ->
             StronglySorted numeric_le sorted ->
             Forall (fun v => is_nan v = false) values ->
             StronglySorted numeric_le
               (fold_left (fun sorted x => sort_insert (fun x y => x - y)%float x sorted)
                          values sorted)).
  { intros Hvalues. apply (H []); [constructor | constructor | exact Hvalues]. }
  induction values as [|x values IH]; intros sorted Hnan Hsorted Hvalues; simpl.
  - exact Hsorted.
  - inversion Hvalues as [|? ? Hx Hrest]; subst.
    apply IH; [| now apply sort_insert_ascending | exact Hrest].
    eapply Permutation_Forall.
    + symmetry. apply sort_insert_Permutation.
    + now constructor.
Qed.

(** ** The median *)

(** What [getMedianOfValues] computes from its sorted array is the standard
    median of that array. *)
Lemma getMedianOfValues_standard_median (value : list PipelineElement) :
  getFlatValues (Batch value) <> [] ->
  standard_median (Array_sort (fun x y => x - y)%float (getFlatValues (Batch value)))
  = Some (getMedianOfValues (Batch value)).
Proof.
  intros Hne. unfold getMedianOfValues, standard_median.
  set (values := Array_sort _ _).
  assert (Hk : List.length values <> O).
  { unfold values. rewrite Array_sort_length.
    destruct (getFlatValues (Batch value)); [contradiction | discriminate]. }
  set (k := List.length values) in *.
  destruct k as [|k'] eqn:Ek; [contradiction|]. rewrite <- Ek in *. clear Ek k'.
  destruct (Nat.even k) eqn:Ev.
  - apply Nat.even_spec in Ev. destruct Ev as [j Hj].
    assert (Hj0 : (0 < j)%nat) by lia.
    assert (Hm : Z.of_nat k mod 2 = 0) by (rewrite Hj; Z.to_euclidean_division_equations; lia).
    assert (Hd : Z.of_nat k / 2 = Z.of_nat j) by (rewrite Hj; Z.to_euclidean_division_equations; lia).
    assert (Hn : (k / 2 = j)%nat).
    { rewrite Hj, Nat.mul_comm. apply Nat.div_mul. discriminate. }
    rewrite Hm, Hd, Hn. simpl (0 =? 0).
    rewrite (Array_get_nth values (Z.of_nat j) nan) by (fold k; lia).
    rewrite (Array_get_nth values (Z.of_nat j - 1) nan) by (fold k; lia).
    simpl ToNumber. rewrite Nat2Z.id.
    replace (Z.to_nat (Z.of_nat j - 1)) with (j - 1)%nat by lia.
    unfold average. now rewrite Binary64.add_comm.
  - assert (Hodd : Nat.odd k = true) by (unfold Nat.odd; now rewrite Ev).
    apply Nat.odd_spec in Hodd. destruct Hodd as [j Hj].
    assert (Hm : Z.of_nat k mod 2 = 1) by (rewrite Hj; Z.to_euclidean_division_equations; lia).
    assert (Hd : (Z.of_nat k - 1) / 2 = Z.of_nat j) by (rewrite Hj; Z.to_euclidean_division_equations; lia).
    assert (Hn : (k / 2 = j)%nat).
    { symmetry. apply (Nat.div_unique k 2 j 1); lia. }
    rewrite Hm, Hd, Hn. simpl (1 =? 0).
    rewrite (Array_get_nth values (Z.of_nat j) nan) by (fold k; lia).
    simpl ToNumber. now rewrite Nat2Z.id.
Qed.

(** C6, as the code has it.  For every batch with at least one flat value
    and no NaN among its flat values, the median block returns [Scalar m]
    where [m] is the standard median of the flat values put in ascending
    numeric order; for a scalar it returns that scalar.  The median of
    [Batch [Scalar 1; Scalar 3]] is [Scalar 2] and that of
    [Batch [Scalar 1; Scalar 2; Scalar 3]] is [Scalar 2]. *)
Theorem foldMedian_standard_median :
  (forall value,
      getFlatValues (Batch value) <> [] ->
      Forall (fun v => is_nan v = false) (getFlatValues (Batch value)) ->
      exists ascending m,
        Permutation ascending (getFlatValues (Batch value))
        /\ StronglySorted numeric_le ascending
        /\ standard_median ascending = Some m
        /\ foldMedian_apply (Batch value) = Some (Scalar m))
  /\ (forall v, foldMedian_apply (Scalar v) = Some (Scalar v))
  /\ foldMedian_apply (Batch [Scalar 1; Scalar 3]) = Some (Scalar 2)
  /\ foldMedian_apply (Batch [Scalar 1; Scalar 2; Scalar 3]) = Some (Scalar 2).
Proof.
  split; [|repeat split].
  intros value Hne Hnan.
  exists (Array_sort (fun x y => x - y)%float (getFlatValues (Batch value))).
  exists (getMedianOfValues (Batch value)).
  split; [apply Array_sort_Permutation|].
  split; [now apply Array_sort_ascending|].
  split; [now apply getMedianOfValues_standard_median | reflexivity].
Qed.

Lemma foldMedian_standard_median_witness :
  exists ascending m,
    Permutation ascending (getFlatValues (Batch [Scalar 3; Batch [Scalar 1; Scalar 2; Scalar 8]]))
    /\ StronglySorted numeric_le ascending
    /\ standard_median ascending = Some m
    /\ foldMedian_apply (Batch [Scalar 3; Batch [Scalar 1; Scalar 2; Scalar 8]])
       = Some (Scalar m).
Proof.
  apply (proj1 foldMedian_standard_median
               [Scalar 3; Batch [Scalar 1; Scalar 2; Scalar 8]]).
  - simpl. discriminate.
  - simpl. repeat constructor.
Defined.

Example median_of_nested_unsorted :
  foldMedian_apply (Batch [Scalar 3; Batch [Scalar 1; Scalar 2; Scalar 8]])
  = Some (Scalar 2.5).
Proof. reflexivity. Qed.

(** C6, as stated, fails on two kinds of batch: a batch with no flat value
    has no median, and the block answers NaN; a batch with a NaN among two
    flat values has no ascending arrangement under the numeric order. *)
Lemma foldMedian_without_median :
  standard_median (Array_sort (fun x y => x - y)%float (getFlatValues (Batch []))) = None
  /\ foldMedian_apply (Batch []) = Some (Scalar nan)
  /\ (forall ascending,
         Permutation ascending (getFlatValues (Batch [Scalar nan; Scalar 1])) ->
         ~ StronglySorted numeric_le ascending).
Proof.
  split; [reflexivity|]. split; [reflexivity|].
  intros ascending Hperm Hsorted.
  apply Permutation_sym, Permutation_length_2_inv in Hperm.
  destruct Hperm as [-> | ->]; inversion Hsorted as [|? ? _ Hhd]; subst;
    inversion Hhd as [|? ? Hle _]; subst; discriminate Hle.
Qed.

(** ** Further properties of the value model and the filter *)

(** X1. The flat values do not depend on how the members are grouped: a
    nested batch may be replaced by its members, and the batch of the flat
    values, each as a scalar, has the same flat values. *)
Theorem getFlatValues_ignores_nesting :
  (forall before inner after,
      getFlatValues (Batch (before ++ Batch inner :: after))
      = getFlatValues (Batch (before ++ inner ++ after)))
  /\ (forall element,
         getFlatValues (Batch (map Scalar (getFlatValues element)))
         = getFlatValues element).
Proof.
  split.
  - intros before inner after.
    rewrite !getFlatValues_Batch, !flat_map_app.
    change (flat_map getFlatValues (Batch inner :: after))
      with (getFlatValues (Batch inner) ++ flat_map getFlatValues after).
    now rewrite getFlatValues_Batch.
  - intros element. rewrite getFlatValues_Batch.
    induction (getFlatValues element) as [|v flat IH]; simpl; [reflexivity | now rewrite IH].
Qed.

Lemma existsb_negb_forallb {A : Type} (p : A -> bool) (l : list A) :
  existsb p l = negb (forallb (fun x => negb (p x)) l).
Proof.
  induction l as [|x l IH]; simpl; [reflexivity|].
  rewrite IH. now destruct (p x).
Qed.

(** X2. The two policies are dual: an element passes under [OR] exactly when
    it does not pass under [AND] for the negated predicate. *)
Theorem doesPassFilter_duality (predicate : float -> bool) (element : PipelineElement) :
  doesPassFilter OR element predicate
  = negb (doesPassFilter AND element (fun v => negb (predicate v))).
Proof.
  rewrite doesPassFilter_OR_flat, doesPassFilter_AND_flat.
  apply existsb_negb_forallb.
Qed.

(** X3. Two [AND] filters in a row are the [AND] filter of the conjunction of
    their predicates. *)
Theorem filter_AND_twice (p q : float -> bool) (element : PipelineElement) :
  match filter_apply p AND element with
  | Some passed => filter_apply q AND passed
  | None => None
  end
  = filter_apply (fun v => p v && q v) AND element.
Proof.
  unfold filter_apply. rewrite !doesPassFilter_AND_flat.
  assert (H : forallb (fun v => p v && q v) (getFlatValues element)
              = forallb p (getFlatValues element) && forallb q (getFlatValues element)).
  { induction (getFlatValues element) as [|v flat IH]; simpl; [reflexivity|].
    rewrite IH. destruct (p v), (q v), (forallb p flat); reflexivity. }
  rewrite H.
  destruct (forallb p (getFlatValues element)); simpl; [|reflexivity].
  now rewrite doesPassFilter_AND_flat.
Qed.

(** ** Further properties of the window *)

Lemma blockAfter_windowHolding (size : Z) (elements : list PipelineElement) :
  forall eventBuffer,
    blockAfter (windowHolding size eventBuffer) elements
    = windowHolding size (eventBufferAfter size eventBuffer elements).
Proof.
  induction elements as [|element elements IH]; intros eventBuffer; [reflexivity|].
  simpl blockAfter. unfold eventBufferAfter. simpl fold_left.
  exact (IH (fst (fixedEventWindow_apply size eventBuffer element))).
Qed.

Lemma eventBufferAfter_cons (size : Z) (eventBuffer : list PipelineElement)
    (element : PipelineElement) (elements : list PipelineElement) :
  eventBufferAfter size eventBuffer (element :: elements)
  = eventBufferAfter size (fst (fixedEventWindow_apply size eventBuffer element)) elements.
Proof. reflexivity. Qed.

(** X5. For a positive size, whatever the elements a window has been called
    on, its buffer holds at most [size] elements, and at least one once it
    has been called. *)
Theorem fixedEventWindow_bounded_buffer (size : Z) (elements : list PipelineElement) :
  0 < size ->
  blockAfter (fixedEventWindow size) elements
  = windowHolding size (eventBufferAfter size [] elements)
  /\ Z.of_nat (List.length (eventBufferAfter size [] elements)) <= size
  /\ (elements <> [] -> eventBufferAfter size [] elements <> []).
Proof.
  intros Hsize. split; [apply (blockAfter_windowHolding size elements [])|].
  assert (H : forall eventBuffer,
             Z.of_nat (List.length eventBuffer) <= size ->
             Z.of_nat (List.length (eventBufferAfter size eventBuffer elements)) <= size
             /\ (elements <> [] -> eventBufferAfter size eventBuffer elements <> [])).
  { induction elements as [|element elements IH]; intros eventBuffer Hlen.
    - split; [exact Hlen | congruence].
    - unfold eventBufferAfter. simpl fold_left.
      set (next := (if Z.of_nat (List.length eventBuffer) =? size then [] else eventBuffer)
                     ++ [element]).
      assert (Hnext : Z.of_nat (List.length next) <= size /\ next <> []).
      { unfold next. split.
        - destruct (Z.of_nat (List.length eventBuffer) =? size) eqn:E;
            rewrite length_app; simpl; [lia|].
          apply Z.eqb_neq in E. lia.
        - intros Habs. apply app_eq_nil in Habs. destruct Habs as [_ Habs]. discriminate. }
      destruct Hnext as [Hle Hne].
      destruct (IH next Hle) as [IH1 IH2]. split; [exact IH1|].
      intros _. destruct elements as [|element' elements']; [exact Hne|].
      apply IH2. discriminate. }
  apply (H []). simpl. lia.
Qed.

Lemma fixedEventWindow_bounded_buffer_witness :
  blockAfter (fixedEventWindow 2) [Scalar 1; Scalar 2; Scalar 3]
  = windowHolding 2 (eventBufferAfter 2 [] [Scalar 1; Scalar 2; Scalar 3])
  /\ Z.of_nat (List.length (eventBufferAfter 2 [] [Scalar 1; Scalar 2; Scalar 3])) <= 2
  /\ ([Scalar 1; Scalar 2; Scalar 3] <> [] ->
      eventBufferAfter 2 [] [Scalar 1; Scalar 2; Scalar 3] <> []).
Proof. apply (fixedEventWindow_bounded_buffer 2 [Scalar 1; Scalar 2; Scalar 3]). lia. Defined.

Lemma calls_window_without_size (size : Z) (elements : list PipelineElement) :
  size <= 0 ->
  forall eventBuffer,
    calls (windowHolding size eventBuffer) elements
    = repeat (Return None) (List.length elements)
    /\ eventBufferAfter size eventBuffer elements = eventBuffer ++ elements.
Proof.
  intros Hsize.
  induction elements as [|element elements IH]; intros eventBuffer.
  - split; [reflexivity | now rewrite app_nil_r].
  - rewrite calls_windowHolding, eventBufferAfter_cons.
    assert (Hstep : fixedEventWindow_apply size eventBuffer element
                    = (eventBuffer ++ [element], None)).
    { unfold fixedEventWindow_apply.
      assert (Hkept : (if Z.of_nat (List.length eventBuffer) =? size then [] else eventBuffer)
                      = eventBuffer).
      { destruct (Z.of_nat (List.length eventBuffer) =? size) eqn:E; [|reflexivity].
        apply Z.eqb_eq in E. destruct eventBuffer; [reflexivity | simpl in E; lia]. }
      rewrite Hkept.
      assert (Hopen : (Z.of_nat (List.length (eventBuffer ++ [element])) =? size) = false).
      { apply Z.eqb_neq. rewrite length_app. simpl. lia. }
      now rewrite Hopen. }
    rewrite Hstep. simpl fst. simpl snd.
    destruct (IH (eventBuffer ++ [element])) as [IH1 IH2].
    rewrite IH1, IH2. split; [reflexivity | now rewrite <- app_assoc].
Qed.

(** X6. A window whose size is zero or negative never returns a batch, and
    its buffer keeps every element it was ever called on. *)
Theorem fixedEventWindow_without_size (size : Z) (elements : list PipelineElement) :
  size <= 0 ->
  calls (fixedEventWindow size) elements = repeat (Return None) (List.length elements)
  /\ blockAfter (fixedEventWindow size) elements = windowHolding size elements.
Proof.
  intros Hsize.
  destruct (calls_window_without_size size elements Hsize []) as [H1 H2].
  split; [exact H1|].
  change (fixedEventWindow size) with (windowHolding size []).
  now rewrite blockAfter_windowHolding, H2.
Qed.

Lemma fixedEventWindow_without_size_witness :
  calls (fixedEventWindow 0) [Scalar 1; Scalar 2; Scalar 3]
  = repeat (Return None) (List.length [Scalar 1; Scalar 2; Scalar 3])
  /\ blockAfter (fixedEventWindow 0) [Scalar 1; Scalar 2; Scalar 3]
     = windowHolding 0 [Scalar 1; Scalar 2; Scalar 3].
Proof. apply (fixedEventWindow_without_size 0 [Scalar 1; Scalar 2; Scalar 3]). lia. Defined.

Lemma list_chunks {A : Type} (n : nat) (l : list A) :
  (0 < n)%nat ->
  exists chunks partial,
    l = List.concat chunks ++ partial
    /\ Forall (fun chunk => List.length chunk = n) chunks
    /\ (List.length partial < n)%nat.
Proof.
  intros Hn.
  remember (List.length l) as k eqn:Hk. revert l Hk.
  induction k as [k IH] using lt_wf_ind. intros l Hk.
  destruct (Nat.lt_ge_cases (List.length l) n) as [Hshort | Hlong].
  - exists [], l. repeat split; [constructor | exact Hshort].
  - destruct (IH (List.length (skipn n l))) with (l := skipn n l)
      as [chunks [partial [Hcat [Hall Hpartial]]]].
    + rewrite length_skipn. lia.
    + reflexivity.
    + exists (firstn n l :: chunks), partial. split; [|split].
      * simpl. rewrite <- app_assoc, <- Hcat. symmetry. apply firstn_skipn.
      * constructor; [|exact Hall]. rewrite length_firstn. lia.
      * exact Hpartial.
Qed.

Lemma returned_app (completions completions' : list Completion) :
  returned (completions ++ completions') = returned completions ++ returned completions'.
Proof.
  induction completions as [|[[element|]|message] completions IH]; simpl;
    [reflexivity | now rewrite IH | exact IH | exact IH].
Qed.

Lemma returned_nulls (n : nat) : returned (repeat (Return None) n) = [].
Proof. induction n; [reflexivity | exact IHn]. Qed.

(** X4. For a positive size, the batches a window returns, from its empty
    buffer, partition its input: the elements it was called on are the
    members of the batches, in order and each once, followed by fewer than
    [size] elements not yet returned; every batch has [size] members. *)
Theorem fixedEventWindow_partitions_input (size : Z) (elements : list PipelineElement) :
  0 < size ->
  exists chunks partial,
    elements = List.concat chunks ++ partial
    /\ Forall (fun chunk => Z.of_nat (List.length chunk) = size) chunks
    /\ Z.of_nat (List.length partial) < size
    /\ returned (calls (fixedEventWindow size) elements) = map Batch chunks.
Proof.
  intros Hsize.
  destruct (list_chunks (Z.to_nat size) elements ltac:(lia))
    as [chunks [partial [Hcat [Hall Hpartial]]]].
  assert (Hall' : Forall (fun chunk => Z.of_nat (List.length chunk) = size) chunks).
  { eapply Forall_impl; [|exact Hall]. simpl. intros chunk H. lia. }
  exists chunks, partial. split; [exact Hcat|]. split; [exact Hall'|]. split; [lia|].
  rewrite Hcat, fixedEventWindow_emits_chunks by (assumption || lia).
  rewrite returned_app, returned_nulls, app_nil_r.
  clear. induction chunks as [|chunk chunks IH]; simpl; [reflexivity|].
  rewrite !returned_app, returned_nulls, IH. reflexivity.
Qed.

Lemma fixedEventWindow_partitions_input_witness :
  exists chunks partial,
    [Scalar 1; Scalar 2; Scalar 3; Scalar 4; Scalar 5] = List.concat chunks ++ partial
    /\ Forall (fun chunk => Z.of_nat (List.length chunk) = 2) chunks
    /\ Z.of_nat (List.length partial) < 2
    /\ returned (calls (fixedEventWindow 2) [Scalar 1; Scalar 2; Scalar 3; Scalar 4; Scalar 5])
       = map Batch chunks.
Proof.
  apply (fixedEventWindow_partitions_input 2
           [Scalar 1; Scalar 2; Scalar 3; Scalar 4; Scalar 5]).
  lia.
Defined.

(** ** Further properties of the sum *)

Module Binary64NaN.

Lemma is_nan_iff (x : float) : is_nan x = true <-> Prim2SF x = S754_nan.
Proof.
  unfold is_nan. rewrite eqb_spec. unfold SFeqb. split.
  - intros H. destruct (Prim2SF x) as [s|s| |s m e] eqn:E; try reflexivity;
      rewrite Binary64.SFcompare_refl in H by discriminate; discriminate.
  - intros ->. reflexivity.
Qed.

Lemma add_nan_l (x y : float) : is_nan x = true -> is_nan (x + y) = true.
Proof.
  rewrite !is_nan_iff, add_spec. intros ->. reflexivity.
Qed.

Lemma add_nan_r (x y : float) : is_nan y = true -> is_nan (x + y) = true.
Proof.
  rewrite !is_nan_iff, add_spec. intros ->. now destruct (Prim2SF x).
Qed.

End Binary64NaN.

Lemma fold_add_nan (value : list PipelineElement) :
  forall aggregator,
    is_nan aggregator = true
    \/ Exists (fun element => is_nan (getSumOfValues element) = true) value ->
    is_nan (fold_left (fun aggregator element => (aggregator + getSumOfValues element)%float)
                      value aggregator) = true.
Proof.
  induction value as [|element value IH]; intros aggregator H; simpl.
  - destruct H as [H | H]; [exact H | inversion H].
  - apply IH. destruct H as [H | H].
    + left. now apply Binary64NaN.add_nan_l.
    + inversion H; subst; [left; now apply Binary64NaN.add_nan_r | now right].
Qed.

(** X7. A NaN among the flat values of an element makes its sum NaN, at
    whatever depth it lies. *)
Theorem getSumOfValues_NaN (element : PipelineElement) :
  Exists (fun v => is_nan v = true) (getFlatValues element) ->
  is_nan (getSumOfValues element) = true.
Proof.
  induction element as [v | value IH] using PipelineElement_ind; intros H.
  - simpl in H. inversion H as [? ? Hv | ? ? Hv]; subst; [exact Hv | inversion Hv].
  - rewrite getFlatValues_Batch in H. simpl getSumOfValues.
    apply fold_add_nan. right.
    apply Exists_exists in H. destruct H as [v [Hin Hv]].
    apply in_flat_map in Hin. destruct Hin as [member [Hmember Hin]].
    apply Exists_exists. exists member. split; [exact Hmember|].
    rewrite Forall_forall in IH. apply (IH member Hmember).
    apply Exists_exists. now exists v.
Qed.

Lemma getSumOfValues_NaN_witness :
  is_nan (getSumOfValues (Batch [Scalar 1; Batch [Scalar nan; Scalar 2]])) = true.
Proof.
  apply getSumOfValues_NaN. simpl. apply Exists_cons_tl. apply Exists_cons_hd. reflexivity.
Defined.

(** Binary64 addition of numbers above zero: the sum is above zero, and [0]
    is neutral. *)
Module Binary64Positive.

Lemma binary_round_aux_positive (m : positive) (e : Z) (l : location) :
  -1074 <= e ->
  SFpositive (binary_round_aux prec emax false (Zpos m) e l).
Proof.
  intros He. unfold binary_round_aux.
  pose proof (Binary64.shr_fexp_positive m e l He) as [H1 H1'].
  destruct (shr_fexp prec emax (Zpos m) e l) as [mrs' e'].
  simpl fst in H1; simpl snd in H1'.
  pose proof (Binary64.round_nearest_even_positive _ (loc_of_shr_record mrs') H1) as H2.
  destruct (round_nearest_even (shr_m mrs') (loc_of_shr_record mrs')) as [|m2|m2]; try lia.
  pose proof (Binary64.shr_fexp_positive m2 e' loc_Exact H1') as [H3 _].
  destruct (shr_fexp prec emax (Zpos m2) e' loc_Exact) as [mrs'' e''].
  simpl fst in H3.
  destruct (shr_m mrs'') as [|m3|m3]; try lia.
  destruct (e'' <=? emax - prec); exact I.
Qed.

Lemma binary_round_positive (m : positive) (e : Z) :
  -1074 <= e -> SFpositive (binary_round prec emax false m e).
Proof.
  intros He. unfold binary_round.
  pose proof (Binary64.shl_align_exponent m e (fexp prec emax (Zpos (digits2_pos m) + e))) as Hz.
  destruct (shl_align m e (fexp prec emax (Zpos (digits2_pos m) + e))) as [mz ez].
  simpl snd in Hz. apply binary_round_aux_positive.
  rewrite Hz, Binary64.fexp_binary64. lia.
Qed.

Lemma SFadd_positive (x y : spec_float) :
  valid_binary x = true -> valid_binary y = true ->
  SFpositive x -> SFpositive y -> SFpositive (SF64add x y).
Proof.
  intros Vx Vy Hx Hy.
  destruct x as [sx|sx| |sx mx ex]; destruct y as [sy|sy| |sy my ey];
    try contradiction;
    try (destruct sx; try contradiction); try (destruct sy; try contradiction);
    try exact I.
  simpl in Vx, Vy. unfold SF64add, SFadd.
  pose proof (Binary64.bounded_binary64 _ _ Vx) as [Hex _].
  pose proof (Binary64.bounded_binary64 _ _ Vy) as [Hey _].
  cbv beta iota delta [cond_Zopp].
  change (Zpos (fst (shl_align mx ex (Z.min ex ey))) + Zpos (fst (shl_align my ey (Z.min ex ey))))
    with (Zpos (fst (shl_align mx ex (Z.min ex ey)) + fst (shl_align my ey (Z.min ex ey)))).
  simpl binary_normalize. apply binary_round_positive. lia.
Qed.

Lemma positive_Prim2SF (x : float) :
  (0 <? x)%float = true <-> SFpositive (Prim2SF x).
Proof.
  rewrite ltb_spec. change (Prim2SF 0) with (S754_zero false).
  unfold SFltb. destruct (Prim2SF x) as [s|[]| |[] m e]; simpl; intuition discriminate.
Qed.

Lemma add_positive (x y : float) :
  (0 <? x)%float = true -> (0 <? y)%float = true -> (0 <? x + y)%float = true.
Proof.
  rewrite !positive_Prim2SF, add_spec.
  apply SFadd_positive; apply Prim2SF_valid.
Qed.

Lemma zero_add_positive (x : float) : (0 <? x)%float = true -> (0 + x)%float = x.
Proof.
  rewrite positive_Prim2SF. intros H. apply Prim2SF_inj. rewrite add_spec.
  change (Prim2SF 0) with (S754_zero false).
  destruct (Prim2SF x) as [s|[]| |[] m e]; simpl in H; try contradiction; reflexivity.
Qed.

Lemma positive_add_zero (x : float) : (0 <? x)%float = true -> (x + 0)%float = x.
Proof.
  intros H. rewrite Binary64.add_comm. now apply zero_add_positive.
Qed.

Lemma positive_not_nan (x : float) : (0 <? x)%float = true -> is_nan x = false.
Proof.
  rewrite positive_Prim2SF. intros H.
  destruct (is_nan x) eqn:E; [|reflexivity].
  apply Binary64NaN.is_nan_iff in E. rewrite E in H. contradiction.
Qed.

End Binary64Positive.

Lemma fold_add_positive (value : list PipelineElement) :
  Forall (fun element =>
            (getFlatValues element = [] /\ getSumOfValues element = 0%float)
            \/ (getFlatValues element <> [] /\ (0 <? getSumOfValues element)%float = true))
         value ->
  forall aggregator,
    (aggregator = 0%float \/ (0 <? aggregator)%float = true) ->
    let s := fold_left (fun aggregator element => (aggregator + getSumOfValues element)%float)
                       value aggregator in
    ((0 <? aggregator)%float = true \/ flat_map getFlatValues value <> [] ->
     (0 <? s)%float = true)
    /\ (aggregator = 0%float -> flat_map getFlatValues value = [] -> s = 0%float).
Proof.
  induction 1 as [|element value Helement _ IH]; intros aggregator Hacc; cbv zeta; simpl.
  - split; [intros [H | H]; [exact H | contradiction] | auto].
  - set (next := (aggregator + getSumOfValues element)%float).
    assert (Hnext : (next = 0%float /\ aggregator = 0%float /\ getFlatValues element = [])
                    \/ ((0 <? next)%float = true)).
    { unfold next.
      destruct Helement as [[Hflat Hs] | [Hflat Hs]]; destruct Hacc as [Ha | Ha].
      - left. rewrite Hs, Ha. repeat split; assumption.
      - right. rewrite Hs. now rewrite Binary64Positive.positive_add_zero.
      - right. rewrite Ha. now rewrite Binary64Positive.zero_add_positive.
      - right. now apply Binary64Positive.add_positive. }
    destruct Hnext as [[Hn [Ha He]] | Hn].
    + destruct (IH next (or_introl Hn)) as [IH1 IH2]. split.
      * intros [H | H].
        -- rewrite Ha in H. discriminate.
        -- apply IH1. right. now rewrite He in H.
      * intros _ H. apply app_eq_nil in H. destruct H as [_ H]. now apply IH2.
    + destruct (IH next (or_intror Hn)) as [IH1 _]. split.
      * intros _. apply IH1. now left.
      * intros Ha H. apply app_eq_nil in H. destruct H as [H _].
        exfalso. unfold next in Hn. rewrite Ha in Hn.
        destruct Helement as [[_ Hs] | [Hflat _]]; [|contradiction].
        rewrite Hs in Hn. discriminate.
Qed.

Lemma getSumOfValues_sign (element : PipelineElement) :
  Forall (fun v => (0 <? v)%float = true) (getFlatValues element) ->
  (getFlatValues element = [] /\ getSumOfValues element = 0%float)
  \/ (getFlatValues element <> [] /\ (0 <? getSumOfValues element)%float = true).
Proof.
  induction element as [v | value IH] using PipelineElement_ind; intros Hpos.
  - right. split; [discriminate | now inversion Hpos].
  - rewrite getFlatValues_Batch in *.
    assert (Hmembers :
              Forall (fun element =>
                        (getFlatValues element = [] /\ getSumOfValues element = 0%float)
                        \/ (getFlatValues element <> []
                            /\ (0 <? getSumOfValues element)%float = true)) value).
    { rewrite Forall_forall in *. intros member Hmember. apply (IH member Hmember).
      apply Forall_forall. intros v Hv. apply Hpos. apply in_flat_map. now exists member. }
    destruct (fold_add_positive value Hmembers 0%float (or_introl eq_refl)) as [H1 H2].
    simpl getSumOfValues.
    destruct (flat_map getFlatValues value) as [|v flat] eqn:E.
    + left. split; [reflexivity | now apply H2].
    + right. split; [discriminate|]. apply H1. right. discriminate.
Qed.

(** X8. When all the flat values of an element are above zero, and there is
    at least one, the sum is above zero; in particular it is not NaN. *)
Theorem getSumOfValues_positive (element : PipelineElement) :
  getFlatValues element <> [] ->
  Forall (fun v => (0 <? v)%float = true) (getFlatValues element) ->
  (0 <? getSumOfValues element)%float = true
  /\ is_nan (getSumOfValues element) = false.
Proof.
  intros Hne Hpos.
  destruct (getSumOfValues_sign element Hpos) as [[H _] | [_ H]]; [contradiction|].
  split; [exact H | now apply Binary64Positive.positive_not_nan].
Qed.

Lemma getSumOfValues_positive_witness :
  (0 <? getSumOfValues (Batch [Batch []; Scalar 1; Batch [Scalar infinity; Scalar 2]]))%float = true
  /\ is_nan (getSumOfValues (Batch [Batch []; Scalar 1; Batch [Scalar infinity; Scalar 2]]))
     = false.
Proof.
  apply getSumOfValues_positive.
  - simpl. discriminate.
  - simpl. repeat constructor.
Defined.

(** ** Further properties of the median *)

(** X9. For a batch with an odd number of flat values the median is one of
    these values, whatever they are. *)
Theorem getMedianOfValues_odd_member (value : list PipelineElement) :
  Nat.odd (List.length (getFlatValues (Batch value))) = true ->
  In (getMedianOfValues (Batch value)) (getFlatValues (Batch value)).
Proof.
  intros Hodd.
  assert (Hne : getFlatValues (Batch value) <> []).
  { intros E. rewrite E in Hodd. discriminate. }
  pose proof (getMedianOfValues_standard_median value Hne) as Hmedian.
  pose proof (Array_sort_length (fun x y => (x - y)%float) (getFlatValues (Batch value)))
    as Hlen.
  pose proof (Array_sort_Permutation (fun x y => (x - y)%float) (getFlatValues (Batch value)))
    as Hperm.
  remember (Array_sort (fun x y => (x - y)%float) (getFlatValues (Batch value))) as values.
  remember (getMedianOfValues (Batch value)) as median.
  remember (getFlatValues (Batch value)) as flat.
  unfold standard_median in Hmedian.
  assert (Heven : Nat.even (List.length values) = false).
  { rewrite Hlen, <- Nat.negb_odd, Hodd. reflexivity. }
  rewrite Heven in Hmedian.
  destruct (List.length values) as [|k] eqn:Ek; [discriminate|].
  assert (Hm : nth (S k / 2) values nan = median) by congruence.
  rewrite <- Hm.
  apply (Permutation_in _ Hperm). apply nth_In. rewrite Ek.
  apply Nat.div_lt; lia.
Qed.

Lemma getMedianOfValues_odd_member_witness :
  In (getMedianOfValues (Batch [Scalar 5; Scalar nan; Scalar 1]))
     (getFlatValues (Batch [Scalar 5; Scalar nan; Scalar 1])).
Proof. apply getMedianOfValues_odd_member. reflexivity. Defined.

Lemma getMedianOfValues_Batch (value : list PipelineElement) :
  getMedianOfValues (Batch value)
  = let values := Array_sort (fun x y => x - y)%float (getFlatValues (Batch value)) in
    let n := Z.of_nat (List.length values) in
    if n mod 2 =? 0
    then (0.5 * (ToNumber (Array_get values (n / 2))
                 + ToNumber (Array_get values (n / 2 - 1))))%float
    else ToNumber (Array_get values ((n - 1) / 2)).
Proof. reflexivity. Qed.

(** X10. For a batch with two flat values the median is half their sum,
    whatever their order and whatever they are. *)
Theorem getMedianOfValues_of_two (value : list PipelineElement) (a b : float) :
  getFlatValues (Batch value) = [a; b] ->
  getMedianOfValues (Batch value) = (0.5 * (a + b))%float.
Proof.
  intros Hflat. rewrite getMedianOfValues_Batch, Hflat.
  unfold Array_sort. simpl fold_left.
  destruct (SortCompare (fun x y => (x - y)%float) b a <? 0)%float; simpl.
  - reflexivity.
  - now rewrite Binary64.add_comm.
Qed.

Lemma getMedianOfValues_of_two_witness :
  getMedianOfValues (Batch [Batch [Scalar 9]; Scalar nan]) = (0.5 * (9 + nan))%float.
Proof. apply getMedianOfValues_of_two. reflexivity. Defined.

(** X11. For a batch with three flat values, none a NaN, the median is the
    middle one: the three values are the median, one value below or equal to
    it and one value above or equal to it. *)
Theorem getMedianOfValues_of_three (value : list PipelineElement) (a b c : float) :
  getFlatValues (Batch value) = [a; b; c] ->
  is_nan a = false -> is_nan b = false -> is_nan c = false ->
  exists lo hi,
    Permutation [lo; getMedianOfValues (Batch value); hi] [a; b; c]
    /\ numeric_le lo (getMedianOfValues (Batch value))
    /\ numeric_le (getMedianOfValues (Batch value)) hi.
Proof.
  intros Hflat Ha Hb Hc.
  assert (Hne : getFlatValues (Batch value) <> []) by (rewrite Hflat; discriminate).
  pose proof (getMedianOfValues_standard_median value Hne) as Hmedian.
  assert (Hnan : Forall (fun v => is_nan v = false) (getFlatValues (Batch value))).
  { rewrite Hflat. repeat constructor; assumption. }
  pose proof (Array_sort_ascending _ Hnan) as Hsorted.
  pose proof (Array_sort_Permutation (fun x y => (x - y)%float) (getFlatValues (Batch value)))
    as Hperm.
  pose proof (Permutation_length Hperm) as Hlen.
  remember (getMedianOfValues (Batch value)) as median.
  rewrite Hflat in *.
  destruct (Array_sort (fun x y => (x - y)%float) [a; b; c]) as [|x0 [|x1 [|x2 [|x3 values]]]];
    try discriminate.
  assert (Hm : x1 = median) by (unfold standard_median in Hmedian; simpl in Hmedian; congruence).
  subst x1. exists x0, x2. split; [exact Hperm|].
  inversion Hsorted as [|? ? Htail H0]; subst.
  inversion Htail as [|? ? _ H1]; subst.
  inversion H0; subst. inversion H1; subst. now split.
Qed.

Lemma getMedianOfValues_of_three_witness :
  exists lo hi,
    Permutation [lo; getMedianOfValues (Batch [Scalar 11; Scalar 3; Scalar 7]); hi] [11; 3; 7]%float
    /\ numeric_le lo (getMedianOfValues (Batch [Scalar 11; Scalar 3; Scalar 7]))
    /\ numeric_le (getMedianOfValues (Batch [Scalar 11; Scalar 3; Scalar 7])) hi.
Proof.
  apply (getMedianOfValues_of_three [Scalar 11; Scalar 3; Scalar 7]); reflexivity.
Defined.

(** X12. The median of a batch that a window returns reads inside its array
    whenever the element the window was called on has a flat value: such a
    batch has a flat value. *)
Theorem window_then_median_in_bounds (size : Z)
    (eventBuffer eventBuffer' : list PipelineElement) (element batch : PipelineElement) :
  fixedEventWindow_apply size eventBuffer element = (eventBuffer', Some batch) ->
  getFlatValues element <> [] ->
  getFlatValues batch <> []
  /\ forallb in_bounds (median_reads batch) = true.
Proof.
  unfold fixedEventWindow_apply. intros Happly Hne.
  set (kept := if Z.of_nat (List.length eventBuffer) =? size then [] else eventBuffer) in *.
  destruct (Z.of_nat (List.length (kept ++ [element])) =? size); [|discriminate].
  injection Happly as _ Hbatch. subst batch.
  assert (Hflat : getFlatValues (Batch (kept ++ [element])) <> []).
  { rewrite getFlatValues_Batch, flat_map_app. simpl. rewrite app_nil_r.
    intros Habs. apply app_eq_nil in Habs. now destruct Habs. }
  split; [exact Hflat | now apply median_reads_in_bounds].
Qed.

Lemma window_then_median_in_bounds_witness :
  getFlatValues (Batch [Batch []; Scalar 4]) <> [] /\
  forallb in_bounds (median_reads (Batch [Batch []; Scalar 4])) = true.
Proof.
  apply (window_then_median_in_bounds 2 [Batch []] [Batch []; Scalar 4] (Scalar 4)).
  - reflexivity.
  - discriminate.
Defined.

(** ** Further properties of the executor, the sink and the source *)

(** X13. The sink put at the end of a list of blocks changes nothing of the
    run of these blocks: it writes the rendering of the element the run ends
    with, nothing when the run ends with [null], and the run ends as before. *)
Theorem stdoutProcessor_is_transparent (shortestDigits : float -> string)
    (functions functions' : list BuildingBlock) (element result : option PipelineElement)
    (written : list string) :
  runBuildingBlocks element functions = (functions', written, result) ->
  runBuildingBlocks element (functions ++ [stdoutProcessor shortestDigits])
  = (functions' ++ [stdoutProcessor shortestDigits],
     written ++ match result with
                | Some el => [getValueAsString shortestDigits el]
                | None => []
                end,
     result).
Proof.
  intros Hrun. rewrite runBuildingBlocks_app, Hrun.
  destruct result as [el|]; reflexivity.
Qed.

Lemma stdoutProcessor_is_transparent_witness :
  runBuildingBlocks (Some (Scalar 2))
    ([windowHolding 2 [Scalar 1]; foldSum] ++ [stdoutProcessor (fun _ => EmptyString)])
  = ([windowHolding 2 [Scalar 1; Scalar 2]; foldSum] ++ [stdoutProcessor (fun _ => EmptyString)],
     [] ++ ["3"%string], Some (Scalar 3)).
Proof.
  apply (stdoutProcessor_is_transparent (fun _ => EmptyString)
           [windowHolding 2 [Scalar 1]; foldSum]
           [windowHolding 2 [Scalar 1; Scalar 2]; foldSum]
           (Some (Scalar 2)) (Some (Scalar 3)) []).
  reflexivity.
Defined.

(** X14. A line that is not a number writes the message of
    [getValidInputNumber] and nothing else happens: the blocks end as they do
    on the lines that are numbers alone, and these lines write what they
    write without the others. *)
Theorem stdinSource_rejects_NaN (functions : list BuildingBlock) (lines : list float) :
  let accepted := List.filter (fun parsedInput => negb (is_nan parsedInput)) lines in
  fst (stdinSource functions lines) = fst (stdinSource functions accepted)
  /\ snd (stdinSource functions lines)
     = withRejections lines (snd (stdinSource functions accepted)).
Proof.
  revert functions. induction lines as [|parsedInput lines IH]; intros functions;
    [split; reflexivity|].
  simpl List.filter. simpl withRejections.
  destruct (is_nan parsedInput) eqn:E; simpl negb; cbv iota.
  - simpl stdinSource. unfold stdinSource_line, getValidInputNumber. rewrite E.
    specialize (IH functions). cbv zeta in IH. destruct IH as [IH1 IH2].
    destruct (stdinSource functions lines) as [functions2 writtens].
    simpl in *. split; [exact IH1 | now rewrite IH2].
  - simpl stdinSource.
    destruct (stdinSource_line functions parsedInput) as [functions1 written].
    specialize (IH functions1). cbv zeta in IH. destruct IH as [IH1 IH2].
    destruct (stdinSource functions1 lines) as [functions2 writtens].
    destruct (stdinSource functions1 (List.filter _ lines)) as [functions2' writtens'].
    simpl in *. split; [exact IH1 | now rewrite IH2].
Qed.

(** X15. The run of blocks that capture nothing and write nothing is the
    composition of their bodies, cut at the first [null]; the blocks are left
    as they were and nothing is written. *)
Theorem pure_pipeline_composes (bodies : list (PipelineElement -> option PipelineElement))
    (element : option PipelineElement) :
  runBuildingBlocks element (map pureBlock bodies)
  = (map pureBlock bodies, [], composed bodies element).
Proof.
  revert element. induction bodies as [|body bodies IH]; intros element; [reflexivity|].
  simpl map. simpl composed. destruct element as [el|].
  - simpl runBuildingBlocks. now rewrite IH.
  - simpl runBuildingBlocks. rewrite IH. reflexivity.
Qed.

(** ** What the configured pipeline computes *)

Lemma quiet_call (block : BuildingBlock) (element : PipelineElement) :
  quiet block ->
  exists block' result,
    call block element = (block', [], Return result) /\ quiet block'.
Proof.
  intros Hquiet. unfold call.
  destruct (Hquiet (captured block) element) as [captured' [result Hinvoke]].
  rewrite Hinvoke.
  exists {| env := env block; captured := captured'; invoke := invoke block |}, result.
  split; [reflexivity | exact Hquiet].
Qed.

Lemma stream_quiet (elements : list PipelineElement) :
  forall block later,
    quiet block ->
    stream (block :: later) elements = stream later (returned (calls block elements)).
Proof.
  induction elements as [|element elements IH]; intros block later Hquiet; [reflexivity|].
  destruct (quiet_call block element Hquiet) as [block' [result [Hcall Hquiet']]].
  simpl stream. simpl calls. rewrite Hcall.
  destruct result as [passed|].
  - simpl returned. simpl stream.
    destruct (runBuildingBlocks (Some passed) later) as [[later' written'] result'].
    simpl. now rewrite (IH block' later' Hquiet').
  - rewrite runBuildingBlocks_null. simpl. rewrite (IH block' later Hquiet').
    now destruct (stream later (returned (calls block' elements))).
Qed.

Lemma quiet_pureBlock (body : PipelineElement -> option PipelineElement) :
  quiet (pureBlock body).
Proof. intros captured element. now exists tt, (body element). Qed.

Lemma quiet_windowHolding (size : Z) (eventBuffer : list PipelineElement) :
  quiet (windowHolding size eventBuffer).
Proof.
  intros captured element.
  exists (fst (fixedEventWindow_apply size captured element)),
         (snd (fixedEventWindow_apply size captured element)).
  reflexivity.
Qed.

Lemma returned_calls_pureBlock (body : PipelineElement -> option PipelineElement)
    (elements : list PipelineElement) :
  returned (calls (pureBlock body) elements) = kept body elements.
Proof.
  induction elements as [|element elements IH]; [reflexivity|].
  simpl. destruct (body element); simpl; now rewrite <- IH.
Qed.

Lemma stream_cons (functions : list BuildingBlock) (element : PipelineElement)
    (elements : list PipelineElement) :
  stream functions (element :: elements)
  = let '(functions', written, result) := runBuildingBlocks (Some element) functions in
    let '(written', results) := stream functions' elements in
    (written ++ written',
     match result with
     | Some r => r :: results
     | None => results
     end).
Proof. reflexivity. Qed.

Lemma runBuildingBlocks_stdoutProcessor (shortestDigits : float -> string)
    (element : PipelineElement) :
  runBuildingBlocks (Some element) [stdoutProcessor shortestDigits]
  = ([stdoutProcessor shortestDigits], [getValueAsString shortestDigits element],
     Some element).
Proof. reflexivity. Qed.

Lemma stream_stdoutProcessor (shortestDigits : float -> string)
    (elements : list PipelineElement) :
  stream [stdoutProcessor shortestDigits] elements
  = (map (getValueAsString shortestDigits) elements, elements).
Proof.
  induction elements as [|element elements IH]; [reflexivity|].
  now rewrite stream_cons, runBuildingBlocks_stdoutProcessor, IH.
Qed.

Lemma kept_filter_Scalars (predicate : float -> bool) (inputs : list float) :
  kept (filter_apply predicate AND) (map Scalar inputs)
  = map Scalar (List.filter predicate inputs).
Proof.
  induction inputs as [|input inputs IH]; [reflexivity|].
  simpl. unfold filter_apply at 1. simpl doesPassFilter.
  destruct (predicate input); simpl; now rewrite IH.
Qed.

Lemma kept_foldSum (elements : list PipelineElement) :
  kept foldSum_apply elements = map (fun element => Scalar (getSumOfValues element)) elements.
Proof. induction elements as [|element elements IH]; simpl; [reflexivity | now rewrite IH]. Qed.

Lemma kept_foldMedian (elements : list PipelineElement) :
  kept foldMedian_apply elements
  = map (fun element => Scalar (getMedianOfValues element)) elements.
Proof. induction elements as [|element elements IH]; simpl; [reflexivity | now rewrite IH]. Qed.

Lemma stream_runs (functions : list BuildingBlock) (inputs : list float) :
  snd (stream functions (map Scalar inputs)) = emitted (runs functions inputs).
Proof.
  revert functions. induction inputs as [|input inputs IH]; intros functions; [reflexivity|].
  simpl.
  destruct (runBuildingBlocks (Some (Scalar input)) functions) as [[functions' written] result].
  specialize (IH functions').
  destruct (stream functions' (map Scalar inputs)) as [written' results].
  simpl in *. destruct result; now rewrite IH.
Qed.

Lemma stream_stdinSource (functions : list BuildingBlock) (inputs : list float) :
  Forall (fun input => is_nan input = false) inputs ->
  fst (stream functions (map Scalar inputs))
  = List.concat (snd (stdinSource functions inputs)).
Proof.
  intros Hvalid. revert functions.
  induction Hvalid as [|input inputs Hinput _ IH]; intros functions; [reflexivity|].
  simpl. unfold stdinSource_line, getValidInputNumber. rewrite Hinput.
  destruct (runBuildingBlocks (Some (Scalar input)) functions) as [[functions' written] result].
  specialize (IH functions').
  destruct (stream functions' (map Scalar inputs)) as [written' results].
  destruct (stdinSource functions' inputs) as [functions2 writtens].
  simpl in *. now rewrite IH.
Qed.

Lemma returned_calls_fixedEventWindow (size : nat) (elements : list PipelineElement) :
  (0 < size)%nat ->
  exists chunks partial,
    elements = List.concat chunks ++ partial
    /\ Forall (fun chunk => List.length chunk = size) chunks
    /\ (List.length partial < size)%nat
    /\ returned (calls (fixedEventWindow (Z.of_nat size)) elements) = map Batch chunks.
Proof.
  intros Hsize.
  destruct (list_chunks size elements Hsize) as [chunks [partial [Hcat [Hall Hpartial]]]].
  exists chunks, partial. split; [exact Hcat|]. split; [exact Hall|]. split; [exact Hpartial|].
  rewrite Hcat, fixedEventWindow_emits_chunks; [|lia| |lia].
  - rewrite returned_app, returned_nulls, app_nil_r.
    clear. induction chunks as [|chunk chunks IH]; simpl; [reflexivity|].
    rewrite !returned_app, returned_nulls, IH. reflexivity.
  - eapply Forall_impl; [|exact Hall]. simpl. intros chunk H. now rewrite H.
Qed.

(** The inputs above zero go by pairs, the sums of the pairs go by triples,
    and the median of each triple is written. *)
Lemma stream_functions (shortestDigits : float -> string) (inputs : list float) :
  exists pairs rest2 triples rest3,
    map Scalar (List.filter (fun i => (0 <? i)%float) inputs) = List.concat pairs ++ rest2
    /\ Forall (fun pair => List.length pair = 2%nat) pairs
    /\ (List.length rest2 < 2)%nat
    /\ map (fun pair => Scalar (getSumOfValues (Batch pair))) pairs
       = List.concat triples ++ rest3
    /\ Forall (fun triple => List.length triple = 3%nat) triples
    /\ (List.length rest3 < 3)%nat
    /\ stream (functions shortestDigits) (map Scalar inputs)
       = (map (fun triple => Number_toString shortestDigits (getMedianOfValues (Batch triple)))
              triples,
          map (fun triple => Scalar (getMedianOfValues (Batch triple))) triples).
Proof.
  destruct (returned_calls_fixedEventWindow 2
              (map Scalar (List.filter (fun i => (0 <? i)%float) inputs)) ltac:(lia))
    as [pairs [rest2 [Hcat2 [Hall2 [Hrest2 Hreturned2]]]]].
  destruct (returned_calls_fixedEventWindow 3
              (map (fun pair => Scalar (getSumOfValues (Batch pair))) pairs) ltac:(lia))
    as [triples [rest3 [Hcat3 [Hall3 [Hrest3 Hreturned3]]]]].
  exists pairs, rest2, triples, rest3.
  repeat (split; [assumption|]).
  unfold functions.
  rewrite stream_quiet by apply quiet_pureBlock.
  unfold filter at 1. rewrite returned_calls_pureBlock, kept_filter_Scalars.
  rewrite stream_quiet by apply (quiet_windowHolding 2 []).
  change (Z.of_nat 2) with 2 in Hreturned2. rewrite Hreturned2.
  rewrite stream_quiet by apply quiet_pureBlock.
  unfold foldSum at 1. rewrite returned_calls_pureBlock, kept_foldSum, map_map.
  rewrite stream_quiet by apply (quiet_windowHolding 3 []).
  change (Z.of_nat 3) with 3 in Hreturned3. rewrite Hreturned3.
  rewrite stream_quiet by apply quiet_pureBlock.
  unfold foldMedian at 1. rewrite returned_calls_pureBlock, kept_foldMedian, map_map.
  rewrite stream_stdoutProcessor, map_map. reflexivity.
Qed.

(** X16. On any lines that are numbers, the configured pipeline takes the
    inputs above zero by successive pairs, the sums of the pairs by
    successive triples, and ends a run with the median of each triple, which
    it writes; it writes nothing else. *)
Theorem configured_pipeline_output (shortestDigits : float -> string) (inputs : list float) :
  Forall (fun input => is_nan input = false) inputs ->
  exists pairs rest2 triples rest3,
    map Scalar (List.filter (fun i => (0 <? i)%float) inputs) = List.concat pairs ++ rest2
    /\ Forall (fun pair => List.length pair = 2%nat) pairs
    /\ (List.length rest2 < 2)%nat
    /\ map (fun pair => Scalar (getSumOfValues (Batch pair))) pairs
       = List.concat triples ++ rest3
    /\ Forall (fun triple => List.length triple = 3%nat) triples
    /\ (List.length rest3 < 3)%nat
    /\ emitted (runs (functions shortestDigits) inputs)
       = map (fun triple => Scalar (getMedianOfValues (Batch triple))) triples
    /\ List.concat (snd (stdinSource (functions shortestDigits) inputs))
       = map (fun triple => Number_toString shortestDigits (getMedianOfValues (Batch triple)))
             triples.
Proof.
  intros Hvalid.
  destruct (stream_functions shortestDigits inputs)
    as [pairs [rest2 [triples [rest3 [H1 [H2 [H3 [H4 [H5 [H6 Hstream]]]]]]]]]].
  exists pairs, rest2, triples, rest3.
  repeat (split; [assumption|]).
  rewrite <- stream_runs, <- (stream_stdinSource _ _ Hvalid), Hstream. split; reflexivity.
Qed.

Lemma configured_pipeline_output_witness :
  exists pairs rest2 triples rest3,
    map Scalar (List.filter (fun i => (0 <? i)%float) [1; 2; 3; -1; 4; 5; 6]%float)
    = List.concat pairs ++ rest2
    /\ Forall (fun pair => List.length pair = 2%nat) pairs
    /\ (List.length rest2 < 2)%nat
    /\ map (fun pair => Scalar (getSumOfValues (Batch pair))) pairs
       = List.concat triples ++ rest3
    /\ Forall (fun triple => List.length triple = 3%nat) triples
    /\ (List.length rest3 < 3)%nat
    /\ emitted (runs (functions (fun _ => EmptyString)) [1; 2; 3; -1; 4; 5; 6]%float)
       = map (fun triple => Scalar (getMedianOfValues (Batch triple))) triples
    /\ List.concat (snd (stdinSource (functions (fun _ => EmptyString))
                                     [1; 2; 3; -1; 4; 5; 6]%float))
       = map (fun triple => Number_toString (fun _ => EmptyString)
                                            (getMedianOfValues (Batch triple)))
             triples.
Proof.
  apply (configured_pipeline_output (fun _ => EmptyString) [1; 2; 3; -1; 4; 5; 6]%float).
  repeat constructor.
Defined.

Lemma batch_of_positive_scalars (members : list PipelineElement) :
  Forall positiveScalar members ->
  Forall (fun v => (0 <? v)%float = true) (getFlatValues (Batch members))
  /\ List.length (getFlatValues (Batch members)) = List.length members.
Proof.
  rewrite getFlatValues_Batch.
  induction 1 as [|member members [v [-> Hv]] _ [IH1 IH2]]; simpl.
  - split; [constructor | reflexivity].
  - split; [now constructor | now rewrite IH2].
Qed.

Lemma chunk_members {A : Type} (P : A -> Prop) (chunks : list (list A)) (partial : list A) :
  Forall P (List.concat chunks ++ partial) ->
  Forall (Forall P) chunks.
Proof.
  intros H. apply Forall_app in H. destruct H as [H _].
  induction chunks as [|chunk chunks IH]; [constructor|].
  simpl in H. apply Forall_app in H. destruct H as [Hchunk Hrest].
  constructor; [exact Hchunk | now apply IH].
Qed.

Lemma getMedianOfValues_three_In (value : list PipelineElement) (a b c : float) :
  getFlatValues (Batch value) = [a; b; c] ->
  In (getMedianOfValues (Batch value)) [a; b; c].
Proof.
  intros Hflat.
  assert (Hne : getFlatValues (Batch value) <> []) by (rewrite Hflat; discriminate).
  pose proof (getMedianOfValues_standard_median value Hne) as Hmedian.
  pose proof (Array_sort_Permutation (fun x y => (x - y)%float) (getFlatValues (Batch value)))
    as Hperm.
  pose proof (Permutation_length Hperm) as Hlen.
  remember (getMedianOfValues (Batch value)) as median.
  rewrite Hflat in *.
  destruct (Array_sort (fun x y => (x - y)%float) [a; b; c]) as [|x0 [|x1 [|x2 [|x3 values]]]];
    try discriminate.
  assert (Hm : x1 = median) by (unfold standard_median in Hmedian; simpl in Hmedian; congruence).
  subst x1. apply (Permutation_in _ Hperm). simpl. auto.
Qed.

(** X17. Whatever the inputs, every element the configured pipeline ends a
    run with is a scalar above zero: it never emits NaN, zero or a negative
    number. *)
Theorem configured_pipeline_emits_positive (shortestDigits : float -> string)
    (inputs : list float) :
  Forall positiveScalar (emitted (runs (functions shortestDigits) inputs)).
Proof.
  destruct (stream_functions shortestDigits inputs)
    as [pairs [rest2 [triples [rest3 [H1 [H2 [H3 [H4 [H5 [H6 Hstream]]]]]]]]]].
  rewrite <- stream_runs, Hstream. simpl snd.
  assert (Hpairs : Forall (Forall positiveScalar) pairs).
  { apply (chunk_members _ pairs rest2). rewrite <- H1.
    apply Forall_forall. intros element Helement.
    apply in_map_iff in Helement. destruct Helement as [v [<- Hv]].
    apply filter_In in Hv. exists v. now split. }
  assert (Hsums : Forall positiveScalar
                    (map (fun pair => Scalar (getSumOfValues (Batch pair))) pairs)).
  { apply Forall_forall. intros element Helement.
    apply in_map_iff in Helement. destruct Helement as [pair [<- Hpair]].
    rewrite Forall_forall in Hpairs, H2.
    destruct (batch_of_positive_scalars pair (Hpairs pair Hpair)) as [Hpos Hlen].
    exists (getSumOfValues (Batch pair)). split; [reflexivity|].
    destruct (getSumOfValues_sign (Batch pair) Hpos) as [[Hflat _] | [_ Hs]]; [|exact Hs].
    rewrite Hflat, (H2 pair Hpair) in Hlen. discriminate. }
  assert (Htriples : Forall (Forall positiveScalar) triples).
  { apply (chunk_members _ triples rest3). now rewrite <- H4. }
  apply Forall_forall. intros element Helement.
  apply in_map_iff in Helement. destruct Helement as [triple [<- Htriple]].
  rewrite Forall_forall in Htriples, H5.
  destruct (batch_of_positive_scalars triple (Htriples triple Htriple)) as [Hpos Hlen].
  exists (getMedianOfValues (Batch triple)). split; [reflexivity|].
  rewrite (H5 triple Htriple) in Hlen.
  destruct (getFlatValues (Batch triple)) as [|a [|b [|c [|d flat]]]] eqn:Hflat;
    try discriminate.
  rewrite Forall_forall in Hpos. apply Hpos.
  now apply getMedianOfValues_three_In.
Qed.

Lemma concat_chunks_length {A : Type} (n : nat) (chunks : list (list A)) :
  Forall (fun chunk => List.length chunk = n) chunks ->
  List.length (List.concat chunks) = (n * List.length chunks)%nat.
Proof.
  induction 1 as [|chunk chunks Hchunk _ IH]; simpl; [lia|].
  rewrite length_app, IH, Hchunk. lia.
Qed.

(** X18. On lines that are numbers the configured pipeline writes one line
    for every six inputs above zero. *)
Theorem configured_pipeline_line_count (shortestDigits : float -> string)
    (inputs : list float) :
  Forall (fun input => is_nan input = false) inputs ->
  List.length (List.concat (snd (stdinSource (functions shortestDigits) inputs)))
  = (List.length (List.filter (fun i => (0 <? i)%float) inputs) / 6)%nat.
Proof.
  intros Hvalid.
  destruct (stream_functions shortestDigits inputs)
    as [pairs [rest2 [triples [rest3 [H1 [H2 [H3 [H4 [H5 [H6 Hstream]]]]]]]]]].
  rewrite <- (stream_stdinSource _ _ Hvalid), Hstream. simpl fst. rewrite length_map.
  apply (f_equal (@List.length _)) in H1, H4.
  rewrite length_map, length_app, (concat_chunks_length 2 pairs H2) in H1.
  rewrite length_map, length_app, (concat_chunks_length 3 triples H5) in H4.
  apply (Nat.div_unique _ 6 _ (2 * List.length rest3 + List.length rest2)); lia.
Qed.

Lemma configured_pipeline_line_count_witness :
  List.length (List.concat (snd (stdinSource (functions (fun _ => EmptyString))
                                             [1; 2; 3; -1; 4; 5; 6; 7; 8]%float)))
  = (List.length (List.filter (fun i => (0 <? i)%float) [1; 2; 3; -1; 4; 5; 6; 7; 8]%float)
     / 6)%nat.
Proof.
  apply (configured_pipeline_line_count (fun _ => EmptyString)).
  repeat constructor.
Defined.
